(** * schema-fns: the composition engine of [src/schema.js]

    A shallow embedding of the pipeline executor ([validationPipeline],
    [validationPipelineAsync]), of the [schema], [key] and [items]
    combinators and of the derived operations [validate], [test] and
    [assert], followed by the properties the specification states about
    them.

    How the program is read.
    - JavaScript values are the inductive type [jsvalue].  Numbers are
      integers: the engine itself only ever produces array indices and
      lengths.  An object is the list of its own enumerable properties in
      insertion order; properties inherited from the built-in prototypes
      and the language's reordering of integer-like keys are left out.
    - A handler [(value, update, error) => ...] talks to the executor only
      through its two callbacks, and both return [undefined].  What a
      handler does with a given [value] is therefore the sequence of
      callback calls it makes and the way it ends: it returns, it throws,
      or it hands back a promise and goes on later.  That is the type
      [process]; a [Handler] is a function from the value to a process.
      As the data model demands, a handler keeps no state between calls.
    - The closures [update] and [error] of the executor assign to the two
      variables [value] and [errors]; they are state transformers on
      [pstate].  The module [Store] repeats the executor with the two
      variables allocated in a store that outlives the call.
    - [throw] is the error monad [result]; an [async function] returns a
      [promise], whose [Pending] steps are the points where it is
      suspended. *)

From Stdlib Require Import ZArith String Ascii DecimalString DecimalNat.
From stdpp Require Import base option list strings.

Local Open Scope string_scope.
Local Open Scope list_scope.

(** ** JavaScript values *)

#[warnings="-register-all"]
Inductive jsvalue : Type :=
| VUndefined
| VNull
| VBool (b : bool)
| VNum (n : Z)
| VStr (s : string)
| VArr (elems : list jsvalue)
| VObj (props : list (string * jsvalue)).

(** An object's own enumerable properties, in insertion order.  That is
    the order in which JavaScript lists them as long as no key is an
    integer index; keys that are come first there.  The program itself
    never depends on the order. *)
Abbreviation record := (list (string * jsvalue)).

(** Faults: what a [throw] carries.  [TypeError] is raised by the language
    itself (property access on [undefined], spreading a non-iterable,
    calling a non-function); [ValidationError] is the class declared in
    the source. *)
Inductive fault : Type :=
| TypeError
| ValidationError (message : string) (details : list record)
| Thrown (v : jsvalue).

Inductive result (A : Type) : Type :=
| Ok (a : A)
| Throw (f : fault).
Arguments Ok {A} a.
Arguments Throw {A} f.

#[global] Instance result_ret : MRet result := fun A a => Ok a.
#[global] Instance result_bind : MBind result := fun A B k m =>
  match m with
  | Ok a => k a
  | Throw f => Throw f
  end.
#[global] Instance result_fmap : FMap result := fun A B g m =>
  match m with
  | Ok a => Ok (g a)
  | Throw f => Throw f
  end.

(** *** Primitive conversions *)

(** Decimal rendering of an array index or a length. *)
Definition index_key (i : nat) : string :=
  NilEmpty.string_of_uint (Nat.to_uint i).

(** Numbers are integers and are written out in full, as JavaScript
    writes the safe integers, those below [2 ^ 53] in magnitude.  What it
    does beyond them -- rounding to a double, and exponent notation from
    [1e21] on -- is not modelled. *)
Definition number_to_string (n : Z) : string :=
  NilEmpty.string_of_int (Z.to_int n).

(** [Boolean(v)]. *)
Definition truthy (v : jsvalue) : bool :=
  match v with
  | VUndefined | VNull => false
  | VBool b => b
  | VNum n => negb (n =? 0)%Z
  | VStr s => negb (String.eqb s "")
  | VArr _ | VObj _ => true
  end.

(** The one-character strings of a string, which is what indexing and
    spreading a string yield. *)
Definition chars (s : string) : list jsvalue :=
  map (fun a => VStr (String a EmptyString)) (list_ascii_of_string s).

(** *** Objects *)

Fixpoint lookup_prop (k : string) (o : record) : option jsvalue :=
  match o with
  | [] => None
  | (k', v) :: o' => if String.eqb k' k then Some v else lookup_prop k o'
  end.

(** [o[k] = v] on an object: an existing key keeps its position, a new
    one goes to the end of the insertion order. *)
Fixpoint assign_prop (k : string) (v : jsvalue) (o : record) : record :=
  match o with
  | [] => [(k, v)]
  | (k', v') :: o' =>
      if String.eqb k' k then (k, v) :: o' else (k', v') :: assign_prop k v o'
  end.

Definition remove_prop (k : string) (o : record) : record :=
  filter (fun kv => kv.1 <> k) o.

(** The properties an object spread [{...v}] copies. *)
Definition own_props (v : jsvalue) : record :=
  match v with
  | VObj o => o
  | VArr xs => imap (fun i x => (index_key i, x)) xs
  | VStr s => imap (fun i x => (index_key i, x)) (chars s)
  | VUndefined | VNull | VBool _ | VNum _ => []
  end.

(** [{...target, ...src}]. *)
Definition spread_into (target : record) (src : jsvalue) : record :=
  fold_left (fun acc kv => assign_prop kv.1 kv.2 acc) (own_props src) target.

(** The position a property key denotes in an array of length [len]. *)
Definition array_index (k : string) (len : nat) : option nat :=
  find (fun i => String.eqb (index_key i) k) (seq 0 len).

(** The names every plain object inherits from [Object.prototype]. *)
Definition Object_prototype : list string :=
  ["constructor"; "__defineGetter__"; "__defineSetter__"; "hasOwnProperty";
   "__lookupGetter__"; "__lookupSetter__"; "isPrototypeOf"; "propertyIsEnumerable";
   "toString"; "valueOf"; "__proto__"; "toLocaleString"].

Definition inherited (k : string) : bool := existsb (String.eqb k) Object_prototype.

(** [v[k]], for a key [k] that is an own property or no property at all.
    The members a value inherits from the built-in prototypes are
    functions, which are not among the values modelled: under the name
    of such a member this reads [undefined] where the program reads the
    member. *)
Definition get_prop (v : jsvalue) (k : string) : result jsvalue :=
  match v with
  | VUndefined | VNull => Throw TypeError
  | VBool _ | VNum _ => Ok VUndefined
  | VObj o => Ok (default VUndefined (lookup_prop k o))
  | VArr xs =>
      if String.eqb k "length" then Ok (VNum (Z.of_nat (length xs)))
      else Ok (default VUndefined (i ← array_index k (length xs); xs !! i))
  | VStr s =>
      if String.eqb k "length" then Ok (VNum (Z.of_nat (String.length s)))
      else Ok (default VUndefined (i ← array_index k (String.length s); chars s !! i))
  end.

(** *** Conversion to a string *)

(** The string [String(v)] yields, when it yields one.  An array renders
    as its elements joined by commas, [undefined] and [null] elements as
    the empty string; an object renders through the inherited
    [toString]. *)
Fixpoint text (v : jsvalue) : string :=
  match v with
  | VUndefined => "undefined"
  | VNull => "null"
  | VBool true => "true"
  | VBool false => "false"
  | VNum n => number_to_string n
  | VStr s => s
  | VArr xs =>
      String.concat ","
        (map (fun x => match x with
                       | VUndefined | VNull => ""
                       | _ => text x
                       end) xs)
  | VObj _ => "[object Object]"
  end.

(** Whether [String(v)] yields a string at all.  An object with an own
    property [toString] has no way to a primitive: no value modelled
    here is callable, so the own [toString] is passed over, and
    [valueOf], own or inherited, yields no primitive either.  An array
    is converted element by element. *)
Fixpoint convertible (v : jsvalue) : bool :=
  match v with
  | VObj o => if lookup_prop "toString" o is Some _ then false else true
  | VArr xs => forallb convertible xs
  | VUndefined | VNull | VBool _ | VNum _ | VStr _ => true
  end.

(** [String(v)], as used by template literals: a [TypeError] when the
    value cannot be converted. *)
Definition to_string (v : jsvalue) : result string :=
  if convertible v then Ok (text v) else Throw TypeError.

(** The string [xs.join(sep)] yields, when it yields one. *)
Definition joined (xs : list jsvalue) (sep : string) : string :=
  String.concat sep
    (map (fun x => match x with
                   | VUndefined | VNull => ""
                   | _ => text x
                   end) xs).

(** [xs.join(sep)]: every element other than [undefined] and [null] is
    converted. *)
Definition join (xs : list jsvalue) (sep : string) : result string :=
  if forallb convertible xs then Ok (joined xs sep) else Throw TypeError.

(** [Number(v)], consulted only where a length is compared; [None] is
    [NaN].  The conversion is exact on [undefined], [null], booleans and
    numbers.  Of the numeric strings only the unsigned decimal integers
    are read, an array is read through its string rendering, and an
    object counts as [NaN], also where converting it would throw. *)
Definition to_number (v : jsvalue) : option Z :=
  match v with
  | VUndefined | VObj _ => None
  | VNull => Some 0%Z
  | VBool b => Some (if b then 1 else 0)%Z
  | VNum n => Some n
  | VStr _ | VArr _ => Z.of_uint <$> NilEmpty.uint_of_string (text v)
  end.

(** [index < len] for a numeric [index]: false as soon as [len] is not a
    number. *)
Definition js_lt (index : nat) (len : jsvalue) : bool :=
  match to_number len with
  | Some n => (Z.of_nat index <? n)%Z
  | None => false
  end.

(** [[...v]]: only arrays and strings are iterable. *)
Definition iterate (v : jsvalue) : result (list jsvalue) :=
  match v with
  | VArr xs => Ok xs
  | VStr s => Ok (chars s)
  | _ => Throw TypeError
  end.

(** [xs[i] = x] on an array.  Inside the bounds the slot is replaced; past
    the end JavaScript grows the array, leaving the skipped slots
    [undefined]. *)
Definition array_set (i : nat) (x : jsvalue) (xs : list jsvalue) : list jsvalue :=
  if decide (i < length xs) then <[i := x]> xs
  else xs ++ replicate (i - length xs) VUndefined ++ [x].

(** [[x].concat(v)]: an array argument is spliced in, anything else is
    appended as one element. *)
Definition concat (xs : list jsvalue) (v : jsvalue) : list jsvalue :=
  match v with
  | VArr ys => xs ++ ys
  | _ => xs ++ [v]
  end.

(** [a || b]. *)
Definition or_else (a b : jsvalue) : jsvalue :=
  if truthy a then a else b.

(** [o.k] on a record: a missing property reads as [undefined]. *)
Definition field (k : string) (o : record) : jsvalue :=
  default VUndefined (lookup_prop k o).

(** ** The handler contract *)

(** The two callbacks a handler may call. *)
Inductive event : Type :=
| Update (newValue : jsvalue)
| Error (code context : jsvalue).

(** What one call [fn(value, update, error)] does: it calls back ([Emit]),
    and then returns ([Done]), throws ([Fail]), or -- an asynchronous
    handler -- hands back a promise and carries on in a later turn of the
    event loop ([Suspend]).  After a [Suspend], [Done] and [Fail] resolve
    and reject that promise; an [async function] that throws straight away
    is [Suspend (Fail f)], since all its caller gets is a promise. *)
Inductive process : Type :=
| Done
| Fail (f : fault)
| Emit (e : event) (k : process)
| Suspend (k : process).

Definition Handler : Type := jsvalue -> process.

(** A handler that finishes all its work before it returns. *)
Fixpoint synchronous (p : process) : bool :=
  match p with
  | Done | Fail _ => true
  | Emit _ k => synchronous k
  | Suspend _ => false
  end.

(** The callbacks made before the call returns. *)
Fixpoint effects (p : process) : list event :=
  match p with
  | Done | Fail _ | Suspend _ => []
  | Emit e k => e :: effects k
  end.

(** The callbacks made once every promise has been awaited. *)
Fixpoint awaited (p : process) : process :=
  match p with
  | Done => Done
  | Fail f => Fail f
  | Emit e k => Emit e (awaited k)
  | Suspend k => awaited k
  end.

(** ** The pipeline executor *)

Record PipelineResult : Type := {
  value : jsvalue;
  valid : bool;
  errors : list record;
}.

(** The two variables of [execValidationPipeline] that its closures
    capture. *)
Record pstate : Type := {
  st_value : jsvalue;
  st_errors : list record;
}.

(** [function update(newValue) { value = newValue; }] *)
Definition update (newValue : jsvalue) (st : pstate) : pstate :=
  {| st_value := newValue; st_errors := st_errors st |}.

(** [function error(code, context) { const e = { code, path: [], ...context };
    errors.push(e); }] *)
Definition error (code context : jsvalue) (st : pstate) : pstate :=
  let e := spread_into [("code", code); ("path", VArr [])] context in
  {| st_value := st_value st; st_errors := st_errors st ++ [e] |}.

Definition callback (e : event) : pstate -> pstate :=
  match e with
  | Update newValue => update newValue
  | Error code context => error code context
  end.

(** [fn(value, update, error)], not awaited: a pending promise is dropped
    and whatever the handler does after suspending comes too late for the
    result being assembled. *)
Fixpoint call (p : process) (st : pstate) : result pstate :=
  match p with
  | Done => Ok st
  | Fail f => Throw f
  | Emit e k => call k (callback e st)
  | Suspend _ => Ok st
  end.

(** [for (const fn of functions) { fn(value, update, error); }] *)
Fixpoint for_of (functions : list Handler) (st : pstate) : result pstate :=
  match functions with
  | [] => Ok st
  | fn :: rest => st' ← call (fn (st_value st)) st; for_of rest st'
  end.

Definition validationPipeline (functions : list Handler) (input : jsvalue)
  : result PipelineResult :=
  st ← for_of functions {| st_value := input; st_errors := [] |};
  let valid := negb (truthy (VNum (Z.of_nat (length (st_errors st))))) in
  Ok {| value := st_value st; valid := valid; errors := st_errors st |}.

(** ** The schema combinator *)

(** [schema(...fns).validate]. *)
Definition validate (fns : list Handler) (input : jsvalue) : result PipelineResult :=
  validationPipeline fns input.

(** The function [schema(...fns)] returns: it runs its own pipeline, hands
    every error to the caller's [error] -- [code] split off the record, the
    rest passed as context -- and then the final value to the caller's
    [update]. *)
Definition handler (fns : list Handler) : Handler := fun input =>
  match validate fns input with
  | Throw f => Fail f
  | Ok r =>
      foldr (fun e k => Emit (Error (field "code" e) (VObj (remove_prop "code" e))) k)
            (Emit (Update (value r)) Done)
            (errors r)
  end.

(** The check that every argument is a function is carried by the type of
    [fns]. *)
Definition schema (fns : list Handler) : Handler := handler fns.

Definition test (fns : list Handler) (input : jsvalue) : result bool :=
  r ← validate fns input; Ok (valid r).

(** [`[${code}] ${path.join(".")}: ${message}, received: ${value}`]: the
    four parts are converted to strings from left to right.  A [path]
    that is not an array has no [join] to call. *)
Definition formatError (e : record) : result string :=
  code ← to_string (field "code" e);
  path ← match field "path" e with
         | VArr path => join path "."
         | _ => Throw TypeError
         end;
  message ← to_string (field "message" e);
  value ← to_string (field "value" e);
  Ok ("[" +:+ code +:+ "] " +:+ path +:+ ": " +:+ message +:+ ", received: " +:+ value).

Definition createValidationError (errors : list record) : result fault :=
  lines ← mapM formatError errors;
  let message :=
    String.concat (String "010" "")
      (("Schema validation failed: " +:+ index_key (length errors) +:+ " errors found")
         :: lines) in
  Ok (ValidationError message errors).

(** What [assert] returns when the input is accepted. *)
Record Accepted : Type := {
  accepted_valid : bool;
  accepted_value : jsvalue;
}.

Definition assert (fns : list Handler) (input : jsvalue) : result Accepted :=
  r ← validate fns input;
  if negb (valid r) then
    err ← createValidationError (errors r); Throw err
  else
    Ok {| accepted_valid := valid r; accepted_value := value r |}.

(** ** Structural combinators *)

(** A nested schema called with callbacks of the combinator's own: each
    call of a callback is turned into one call of the outer callback and a
    new local state, or a fault.  A pending promise is not awaited. *)
Section Relay.
Context {S : Type}.
Variable onUpdate : jsvalue -> S -> result (event * S).
Variable onError : jsvalue -> jsvalue -> S -> result (event * S).

Definition on (e : event) : S -> result (event * S) :=
  match e with
  | Update newValue => onUpdate newValue
  | Error code context => onError code context
  end.

Fixpoint relay (p : process) (s : S) (k : S -> process) : process :=
  match p with
  | Done | Suspend _ => k s
  | Fail f => Fail f
  | Emit e p' =>
      match on e s with
      | Throw f => Fail f
      | Ok (e', s') => Emit e' (relay p' s' k)
      end
  end.
End Relay.

(** [{ ...context, path: [segment].concat(context.path || []) }] *)
Definition prefixed (segment : jsvalue) (context : jsvalue) : result jsvalue :=
  path ← get_prop context "path";
  Ok (VObj (assign_prop "path" (VArr (concat [segment] (or_else path (VArr []))))
              (spread_into [] context))).

Section Key.
Variable name : string.
Variable value : jsvalue.

(** [function keyUpdate(newKeyValue) { update({ ...value, [name]: newKeyValue }); }] *)
Definition keyUpdate (newKeyValue : jsvalue) (_ : unit) : result (event * unit) :=
  let newValue := VObj (assign_prop name newKeyValue (spread_into [] value)) in
  Ok (Update newValue, tt).

(** [function keyError(code, context) { error(code, { ...context, path: ... }); }] *)
Definition keyError (code context : jsvalue) (_ : unit) : result (event * unit) :=
  context' ← prefixed (VStr name) context;
  Ok (Error code context', tt).
End Key.

Definition key (name : string) (fns : list Handler) : Handler :=
  let keySchema := schema fns in
  fun value =>
    match get_prop value name with
    | Throw f => Fail f
    | Ok input => relay (keyUpdate name value) (keyError name) (keySchema input) tt (fun _ => Done)
    end.

Section Items.
Variable index : nat.

(** [function itemUpdate(newItemValue) { const newValue = [...items];
    newValue[index] = newItemValue; update(newValue); items = newValue; }]
    The local state is the variable [items]. *)
Definition itemUpdate (newItemValue : jsvalue) (items : jsvalue) : result (event * jsvalue) :=
  copy ← iterate items;
  let newValue := VArr (array_set index newItemValue copy) in
  Ok (Update newValue, newValue).

(** [function itemError(code, context) { error(code, { ...context, path: ... }); }] *)
Definition itemError (code context : jsvalue) (items : jsvalue) : result (event * jsvalue) :=
  context' ← prefixed (VNum (Z.of_nat index)) context;
  Ok (Error code context', items).
End Items.

(** [while (index < items.length) { const item = items[index];
    itemSchema(item, itemUpdate, itemError); index++; }]
    The loop is unrolled at most [fuel] times. *)
Fixpoint items_loop (fuel : nat) (itemSchema : Handler) (items : jsvalue) (index : nat)
  : process :=
  match fuel with
  | 0 => Done
  | S fuel' =>
      match get_prop items "length" with
      | Throw f => Fail f
      | Ok len =>
          if js_lt index len then
            match get_prop items (index_key index) with
            | Throw f => Fail f
            | Ok item =>
                relay (itemUpdate index) (itemError index) (itemSchema item) items
                      (fun items' => items_loop fuel' itemSchema items' (S index))
            end
          else Done
      end
  end.

(** The number of iterations the loop can make over [items]; [items_fuel]
    shows that the loop stops on its own condition before this runs out. *)
Definition iterations (items : jsvalue) : nat :=
  match get_prop items "length" with
  | Ok len => Z.to_nat (default 0%Z (to_number len))
  | Throw _ => 0
  end.

Definition items (fns : list Handler) : Handler :=
  let itemSchema := schema fns in
  fun value => items_loop (S (iterations value)) itemSchema value 0.

(** ** Leaf handlers used in the examples *)

(** [mapAdapter(mapFn)]: the value is replaced unless [mapFn] returns
    [undefined]. *)
Definition mapAdapter (mapFn : jsvalue -> result jsvalue) : Handler := fun value =>
  match mapFn value with
  | Throw f => Fail f
  | Ok VUndefined => Done
  | Ok returnValue => Emit (Update returnValue) Done
  end.

Definition required : Handler := fun value =>
  if negb (truthy value) then
    Emit (Error (VStr "required")
                (VObj [("message", VStr "value is required"); ("value", value)])) Done
  else Done.

(** [isType(type)], given the entry [{ expected, test }] the type table
    holds for [type]. *)
Definition isType (expected : string) (test : jsvalue -> bool) : Handler := fun value =>
  if negb (test value) then
    Emit (Error (VStr "is.type")
                (VObj [("message", VStr ("wrong type: expected " +:+ expected));
                       ("expectedType", VStr expected);
                       ("value", value)])) Done
  else Done.

(** ** The asynchronous mode *)

(** The promise an [async function] returns, seen from the event loop:
    [Pending] is a point where the function is suspended at an [await] and
    other work may run. *)
Inductive promise (A : Type) : Type :=
| Resolved (a : A)
| Rejected (f : fault)
| Pending (next : promise A).
Arguments Resolved {A} a.
Arguments Rejected {A} f.
Arguments Pending {A} next.

#[global] Instance promise_ret : MRet promise := fun A a => Resolved a.
#[global] Instance promise_bind : MBind promise := fun A B k =>
  fix go (m : promise A) : promise B :=
    match m with
    | Resolved a => k a
    | Rejected f => Rejected f
    | Pending next => Pending (go next)
    end.

#[global] Instance promise_fmap : FMap promise := fun A B g =>
  fix go (m : promise A) : promise B :=
    match m with
    | Resolved a => Resolved (g a)
    | Rejected f => Rejected f
    | Pending next => Pending (go next)
    end.

(** Running the event loop until the promise settles. *)
Fixpoint settle {A : Type} (m : promise A) : result A :=
  match m with
  | Resolved a => Ok a
  | Rejected f => Throw f
  | Pending next => settle next
  end.

(** The number of suspensions on the way. *)
Fixpoint turns {A : Type} (m : promise A) : nat :=
  match m with
  | Resolved _ | Rejected _ => 0
  | Pending next => S (turns next)
  end.

(** [await m]: the caller resumes a turn after [m] has settled. *)
Definition await {A : Type} (m : promise A) : promise A :=
  a ← m; Pending (Resolved a).

(** [await fn(value, update, error)]: the executor stays suspended until
    the handler's promise settles, so the callbacks the handler makes
    after suspending still reach [value] and [errors] before the next
    handler starts. *)
Fixpoint awaitCall (p : process) (st : pstate) : promise pstate :=
  match p with
  | Done => Pending (Resolved st)
  | Fail f => Rejected f
  | Emit e k => awaitCall k (callback e st)
  | Suspend k => Pending (awaitCall k st)
  end.

(** [for (const fn of functions) { await fn(value, update, error); }] *)
Fixpoint for_await (functions : list Handler) (st : pstate) : promise pstate :=
  match functions with
  | [] => Resolved st
  | fn :: rest => st' ← awaitCall (fn (st_value st)) st; for_await rest st'
  end.

Definition validationPipelineAsync (functions : list Handler) (input : jsvalue)
  : promise PipelineResult :=
  st ← for_await functions {| st_value := input; st_errors := [] |};
  let valid := negb (truthy (VNum (Z.of_nat (length (st_errors st))))) in
  Resolved {| value := st_value st; valid := valid; errors := st_errors st |}.

Definition validateAsync (fns : list Handler) (input : jsvalue) : promise PipelineResult :=
  await (validationPipelineAsync fns input).

Definition testAsync (fns : list Handler) (input : jsvalue) : promise bool :=
  r ← await (validateAsync fns input); Resolved (valid r).

Definition assertAsync (fns : list Handler) (input : jsvalue) : promise Accepted :=
  r ← await (validateAsync fns input);
  if negb (valid r) then
    match createValidationError (errors r) with
    | Ok err | Throw err => Rejected err
    end
  else
    Resolved {| accepted_valid := valid r; accepted_value := value r |}.

(** ** The executor with its calls recorded

    The same loop, with a record kept of each handler call: the position
    of the handler, the value it was given and the callbacks it made.  The
    record is not part of the program; [for_of_log_erase] shows that
    keeping it changes nothing. *)

Record invocation : Type := {
  inv_index : nat;
  inv_value : jsvalue;
  inv_effects : list event;
}.

Fixpoint for_of_log (functions : list Handler) (index : nat) (st : pstate)
  : result (list invocation * pstate) :=
  match functions with
  | [] => Ok ([], st)
  | fn :: rest =>
      let p := fn (st_value st) in
      st' ← call p st;
      '(log, st'') ← for_of_log rest (S index) st';
      Ok ({| inv_index := index; inv_value := st_value st; inv_effects := effects p |} :: log,
          st'')
  end.

(** The calls made by [validationPipeline(...functions)(input)]. *)
Definition invocations (functions : list Handler) (input : jsvalue)
  : result (list invocation) :=
  fst <$> for_of_log functions 0 {| st_value := input; st_errors := [] |}.

Fixpoint for_await_log (functions : list Handler) (index : nat) (st : pstate)
  : promise (list invocation * pstate) :=
  match functions with
  | [] => Resolved ([], st)
  | fn :: rest =>
      let p := fn (st_value st) in
      st' ← awaitCall p st;
      '(log, st'') ← for_await_log rest (S index) st';
      Resolved ({| inv_index := index; inv_value := st_value st;
                   inv_effects := effects (awaited p) |} :: log, st'')
  end.

(** The calls made by [validationPipelineAsync(...functions)(input)]. *)
Definition invocationsAsync (functions : list Handler) (input : jsvalue)
  : promise (list invocation) :=
  fst <$> for_await_log functions 0 {| st_value := input; st_errors := [] |}.

(** ** The executor over an explicit store

    [execValidationPipeline] declares [errors] and [value] afresh on every
    call and its closures [update] and [error] write to exactly those two.
    Here the variables live in a store that outlasts the call, so that what
    one invocation leaves behind is there for the next one to see. *)

Module Store.

Inductive cell : Type :=
| Binding (v : jsvalue)
| Accumulator (es : list record).

(** Where the two variables of one invocation live. *)
Record scope : Type := {
  errors_at : nat;
  value_at : nat;
}.

Definition read_value (l : nat) (h : list cell) : jsvalue :=
  match h !! l with
  | Some (Binding v) => v
  | _ => VUndefined
  end.

Definition read_errors (l : nat) (h : list cell) : list record :=
  match h !! l with
  | Some (Accumulator es) => es
  | _ => []
  end.

Definition update (env : scope) (newValue : jsvalue) (h : list cell) : list cell :=
  <[value_at env := Binding newValue]> h.

Definition error (env : scope) (code context : jsvalue) (h : list cell) : list cell :=
  let e := spread_into [("code", code); ("path", VArr [])] context in
  <[errors_at env := Accumulator (read_errors (errors_at env) h ++ [e])]> h.

Definition callback (env : scope) (e : event) : list cell -> list cell :=
  match e with
  | Update newValue => update env newValue
  | Error code context => error env code context
  end.

Fixpoint call (env : scope) (p : process) (h : list cell) : result (list cell) :=
  match p with
  | Done => Ok h
  | Fail f => Throw f
  | Emit e k => call env k (callback env e h)
  | Suspend _ => Ok h
  end.

Fixpoint for_of (env : scope) (functions : list Handler) (h : list cell)
  : result (list cell) :=
  match functions with
  | [] => Ok h
  | fn :: rest => h' ← call env (fn (read_value (value_at env) h)) h; for_of env rest h'
  end.

(** The object [{ value, valid, errors }]: [errors] is the array itself,
    not a copy of it. *)
Record PipelineResultRef : Type := {
  value : jsvalue;
  valid : bool;
  errors : nat;
}.

Definition execValidationPipeline (functions : list Handler) (input : jsvalue)
    (h : list cell) : result (PipelineResultRef * list cell) :=
  let env := {| errors_at := length h; value_at := S (length h) |} in
  let h := h ++ [Accumulator []; Binding input] in
  h ← for_of env functions h;
  let errors := read_errors (errors_at env) h in
  let valid := negb (truthy (VNum (Z.of_nat (length errors)))) in
  Ok ({| value := read_value (value_at env) h; valid := valid; errors := errors_at env |}, h).

(** [validate] builds a pipeline from the schema's handler list and calls
    it. *)
Definition validate (fns : list Handler) (input : jsvalue) (h : list cell)
  : result (PipelineResultRef * list cell) :=
  execValidationPipeline fns input h.

End Store.

(** ** Handlers of the examples

    The leaf validators and coercions of the README, a handler that
    suspends, and three handlers that call [error] in ways the handler
    contract does not rule out. *)

(** [mapAdapter(value => String(value))] and [mapAdapter(value => value + "1")]. *)
Definition stringify : Handler := mapAdapter (fun v => VStr <$> to_string v).
Definition append_one : Handler :=
  mapAdapter (fun v => s ← to_string v; Ok (VStr (s +:+ "1"))).

(** [mapAdapter(value => value * 2)] as it acts on a number.  Any other
    value is left as it is here, where JavaScript would convert it to a
    number first. *)
Definition double : Handler :=
  mapAdapter (fun v => Ok (if v is VNum n then VNum (2 * n) else v)).

(** The tests of the type table, on the values modelled here. *)
Definition is_number (v : jsvalue) : bool := if v is VNum _ then true else false.
Definition is_string (v : jsvalue) : bool := if v is VStr _ then true else false.
Definition is_object (v : jsvalue) : bool := if v is VObj _ then true else false.

(** [async (value, update) => { await null; update(1); }] *)
Definition late_update : Handler := fun _ => Suspend (Emit (Update (VNum 1)) Done).


(** [(value, update, error) => error("not.foo", {})] *)
Definition bare_error : Handler := fun _ => Emit (Error (VStr "not.foo") (VObj [])) Done.

(** [(value, update, error) => error("not.foo", { message: "m", code: undefined })] *)
Definition code_undefined : Handler := fun _ =>
  Emit (Error (VStr "not.foo") (VObj [("message", VStr "m"); ("code", VUndefined)])) Done.

(** ** Further handlers and the construction check *)

(** [key in value]: a [TypeError] unless [value] is an object.  The
    operator finds own properties and inherited ones.  For an array the
    names of [Array.prototype] itself, which vary with the edition of
    the language, are not listed. *)
Definition has_prop (k : string) (v : jsvalue) : result bool :=
  match v with
  | VObj o => Ok ((if lookup_prop k o is Some _ then true else false) || inherited k)
  | VArr xs =>
      Ok (String.eqb k "length"
          || (if array_index k (length xs) is Some _ then true else false)
          || inherited k)
  | VUndefined | VNull | VBool _ | VNum _ | VStr _ => Throw TypeError
  end.

(** [keys.filter(key => !(key in value))] *)
Fixpoint missingKeys (keys : list string) (value : jsvalue) : result (list string) :=
  match keys with
  | [] => Ok []
  | key :: rest =>
      present ← has_prop key value;
      missing ← missingKeys rest value;
      Ok (if present : bool then missing else key :: missing)
  end.

(** [hasKeys(...keys)]: one [key.missing] error per missing key. *)
Definition hasKeys (keys : list string) : Handler := fun value =>
  match missingKeys keys value with
  | Throw f => Fail f
  | Ok missing =>
      foldr (fun key k =>
               Emit (Error (VStr "key.missing")
                           (VObj [("message",
                                   VStr ("expected key " +:+ String "034" "" +:+ key
                                         +:+ String "034" "" +:+ " missing"));
                                  ("key", VStr key);
                                  ("value", value)])) k)
            Done missing
  end.

Module Length.

(** [length(min, max)], with [None] for a [max] of [Infinity].  The
    defaults are [length 0 None]. *)
Definition length (min : Z) (max : option Z) : Handler := fun value =>
  match get_prop value "length" with
  | Throw f => Fail f
  | Ok len =>
      let below := if to_number len is Some n then (n <? min)%Z else false in
      let above :=
        match to_number len, max with
        | Some n, Some m => (m <? n)%Z
        | _, _ => false
        end in
      let message :=
        if (min =? 0)%Z then "value cannot be empty"
        else "value must be at least " +:+ number_to_string min +:+ " in length" in
      let tail :=
        if above then
          Emit (Error (VStr "length.max")
                      (VObj [("message",
                              VStr ("value cannot exceed "
                                    +:+ (if max is Some m then number_to_string m else "Infinity")
                                    +:+ " in length"))])) Done
        else Done in
      if below then Emit (Error (VStr "length.min") (VObj [("message", VStr message)])) tail
      else tail
  end.

End Length.

(** An argument of [schema(...)]: a function, or anything else. *)
Inductive argument : Type :=
| Fn (fn : Handler)
| NotFn (v : jsvalue).

(** The [TypeError] [schema(...)] throws, with its [message] and the
    [value] attached to it. *)
Record ArgumentError : Type := {
  argument_message : string;
  argument_value : jsvalue;
}.

(** [for (const [index, fn] of Object.entries(fns)) { if (!is.fn(fn)) throw ... }],
    from position [index] on; the handler list is what the schema then
    works with. *)
Fixpoint check_arguments (index : nat) (args : list argument)
  : ArgumentError + list Handler :=
  match args with
  | [] => inr []
  | Fn fn :: rest =>
      match check_arguments (S index) rest with
      | inl err => inl err
      | inr fns => inr (fn :: fns)
      end
  | NotFn v :: _ =>
      inl {| argument_message :=
               "schema(): value with index " +:+ index_key index +:+ " is not a function";
             argument_value := v |}
  end.

(** * Vocabulary of the statements *)

(** ** Processes *)

(** The fault a call ends with, if the handler throws before returning. *)
Fixpoint thrown (p : process) : option fault :=
  match p with
  | Done | Suspend _ => None
  | Fail f => Some f
  | Emit _ k => thrown k
  end.

(** The process that makes the callbacks [evs] and goes on as [k]. *)
Definition emit_all (evs : list event) (k : process) : process :=
  foldr Emit k evs.

Definition is_error (e : event) : bool :=
  match e with
  | Error _ _ => true
  | Update _ => false
  end.

(** A handler with its [error] calls taken out. *)
Fixpoint mute (p : process) : process :=
  match p with
  | Done => Done
  | Fail f => Fail f
  | Emit e k => if is_error e then mute k else Emit e (mute k)
  | Suspend k => Suspend (mute k)
  end.

Definition silent (fn : Handler) : Handler := fun value => mute (fn value).

(** A handler run to the end of everything it awaits. *)
Definition completed (fn : Handler) : Handler := fun value => awaited (fn value).

(** ** Runs *)

(** The record [error(code, context)] appends. *)
Definition error_record (code context : jsvalue) : record :=
  spread_into [("code", code); ("path", VArr [])] context.

(** The records a sequence of callbacks appends to [errors]. *)
Definition reported (evs : list event) : list record :=
  omap (fun e => match e with
                 | Error code context => Some (error_record code context)
                 | Update _ => None
                 end) evs.

(** The variable [value] after a sequence of callbacks. *)
Definition last_update (evs : list event) (v : jsvalue) : jsvalue :=
  foldl (fun v e => match e with
                    | Update newValue => newValue
                    | Error _ _ => v
                    end) v evs.

(** The callbacks of a whole run, in the order they were made. *)
Definition all_effects (log : list invocation) : list event :=
  log ≫= inv_effects.

(** [{ value, valid, errors }] from the two variables. *)
Definition assemble (st : pstate) : PipelineResult :=
  {| value := st_value st;
     valid := negb (truthy (VNum (Z.of_nat (length (st_errors st)))));
     errors := st_errors st |}.

(** The two cells of an invocation whose variables hold [st], allocated
    on top of [h]. *)
Definition cells (h : list Store.cell) (st : pstate) : list Store.cell :=
  h ++ [Store.Accumulator (st_errors st); Store.Binding (st_value st)].

Definition scope_on (h : list Store.cell) : Store.scope :=
  {| Store.errors_at := length h; Store.value_at := S (length h) |}.

(** ** Error records *)

(** The shape of every record the executor's [error] builds: [code]
    first, [path] second, then the other properties of the context, each
    once. *)
Definition error_shaped (e : record) : Prop :=
  ∃ c p rest, e = ("code", c) :: ("path", p) :: rest
              ∧ NoDup (rest.*1) ∧ ("code" ∉ rest.*1) ∧ ("path" ∉ rest.*1).

(** [const { code, ...context } = e; error(code, context)] *)
Definition forwarded (e : record) : event :=
  Error (field "code" e) (VObj (remove_prop "code" e)).

(** The context [keyError] and [itemError] pass on. *)
Definition prefix_context (segment : jsvalue) (context : record) : jsvalue :=
  VObj (assign_prop "path"
          (VArr (concat [segment] (or_else (field "path" context) (VArr []))))
          (spread_into [] (VObj context))).

(** An error of the nested schema as the combinator hands it to the outer
    [error]. *)
Definition relayed (segment : jsvalue) (e : record) : event :=
  Error (field "code" e) (prefix_context segment (remove_prop "code" e)).

(** [e] is [e'] with [segment] put in front of its path. *)
Definition path_prefixed (segment : jsvalue) (e' e : record) : Prop :=
  field "code" e = field "code" e'
  ∧ field "path" e = VArr (concat [segment] (or_else (field "path" e') (VArr []))).

Definition path_begins (segments : list jsvalue) (e : record) : Prop :=
  ∃ rest, field "path" e = VArr (segments ++ rest).

Definition has_array_path (e : record) : Prop := ∃ path, field "path" e = VArr path.

(** A field that is present and not [undefined]. *)
Definition populated (k : string) (o : record) : Prop :=
  ∃ v, lookup_prop k o = Some v ∧ v ≠ VUndefined.

Definition fully_populated (e : record) : Prop :=
  populated "code" e ∧ populated "path" e ∧ populated "message" e.

(** ** Combinators *)

(** [key(n1, key(n2, ... key(nk, ...fns)))], as a handler list. *)
Fixpoint nested_keys (names : list string) (fns : list Handler) : list Handler :=
  match names with
  | [] => fns
  | name :: names' => [key name (nested_keys names' fns)]
  end.

(** What the [i]-th iteration of [items] does when the nested schema
    returns [r] for the element: the errors of [r] with [i] in front of
    their paths, then one [update] with the sequence [now] as it stands
    after the iteration. *)
Definition item_step (i : nat) (r : PipelineResult) (now : list jsvalue) : list event :=
  (relayed (VNum (Z.of_nat i)) <$> errors r) ++ [Update (VArr now)].

(** ** [assert] *)

(** The segments of a path that is an array. *)
Definition segments (e : record) : list jsvalue :=
  if field "path" e is VArr path then path else [].

(** The line [formatError] renders for a record it can format. *)
Definition error_line (e : record) : string :=
  "[" +:+ text (field "code" e) +:+ "] " +:+ joined (segments e) "." +:+ ": "
  +:+ text (field "message" e) +:+ ", received: " +:+ text (field "value" e).

(** The code, the path segments, the message and the value of the record
    all have a string form. *)
Definition written (e : record) : bool :=
  convertible (field "code" e) && forallb convertible (segments e)
  && convertible (field "message" e) && convertible (field "value" e).

(** What [formatError] needs of a record: a path that is an array, and
    parts that have a string form. *)
Definition formattable (e : record) : bool :=
  (if field "path" e is VArr _ then true else false) && written e.

(** The numbers that show when the value is converted to a string are
    safe integers ([Number.isSafeInteger]), which are written out in
    full. *)
Fixpoint in_full (v : jsvalue) : bool :=
  match v with
  | VNum n => (Z.abs n <? 2 ^ 53)%Z
  | VArr xs => forallb in_full xs
  | VUndefined | VNull | VBool _ | VStr _ | VObj _ => true
  end.

(** A record [formatError] renders as [error_line] says. *)
Definition printable (e : record) : Prop :=
  formattable e = true
  ∧ in_full (field "code" e) && forallb in_full (segments e)
    && in_full (field "message" e) && in_full (field "value" e) = true.

Definition failure_message (errors : list record) : string :=
  String.concat (String "010" "")
    (("Schema validation failed: " +:+ index_key (length errors) +:+ " errors found")
       :: (error_line <$> errors)).

(** ** Contracts on [error] calls *)

(** The contract as the specification words it: [error] is called with a
    non-empty code and a context object. *)
Definition obeys_contract (fn : Handler) : Prop :=
  ∀ v code context, Error code context ∈ effects (fn v) →
    ∃ c o, code = VStr c ∧ c ≠ "" ∧ context = VObj o ∧ NoDup (o.*1).

(** The contract that does populate all three fields: the context brings
    the message, and sets neither [code] nor [path] to [undefined]. *)
Definition brings_message (fn : Handler) : Prop :=
  ∀ v code context, Error code context ∈ effects (fn v) →
    ∃ c o, code = VStr c ∧ c ≠ "" ∧ context = VObj o ∧ NoDup (o.*1)
           ∧ populated "message" o
           ∧ lookup_prop "code" o ≠ Some VUndefined
           ∧ lookup_prop "path" o ≠ Some VUndefined.

(** ** Further vocabulary *)

(** A state with the records [es] in front of its errors. *)
Definition with_errors (es : list record) (st : pstate) : pstate :=
  {| st_value := st_value st; st_errors := es ++ st_errors st |}.


(** The handlers [key] and [items] build. *)
Inductive structural : Handler → Prop :=
| structural_key name fns : structural (key name fns)
| structural_items fns : structural (items fns).

(** A callback as [key] and [items] make it: an [update], or an error of
    a nested schema passed on with a segment in front of its path. *)
Definition passed_on (ev : event) : Prop :=
  is_error ev = false ∨ ∃ segment e, error_shaped e ∧ ev = relayed segment e.

(** The value a chain of mapping functions leads to: each function sees
    what the one before it returned, except that a function returning
    [undefined] is passed over. *)
Fixpoint through (mapFns : list (jsvalue → result jsvalue)) (v : jsvalue) : result jsvalue :=
  match mapFns with
  | [] => Ok v
  | mapFn :: rest => y ← mapFn v; through rest (if y is VUndefined then v else y)
  end.

(** The record an [is.type] error ends up as. *)
Definition type_error (expected : string) (v : jsvalue) : record :=
  [("code", VStr "is.type"); ("path", VArr []);
   ("message", VStr ("wrong type: expected " +:+ expected));
   ("expectedType", VStr expected); ("value", v)].

(** The record a [key.missing] error ends up as. *)
Definition missing_error (v : jsvalue) (key : string) : record :=
  [("code", VStr "key.missing"); ("path", VArr []);
   ("message", VStr ("expected key " +:+ String "034" "" +:+ key
                     +:+ String "034" "" +:+ " missing"));
   ("key", VStr key); ("value", v)].

(** [key in v] for an object. *)
Definition present (v : jsvalue) (key : string) : bool :=
  if has_prop key v is Ok true then true else false.

(** The length of an array or a string. *)
Definition sized (v : jsvalue) : option nat :=
  match v with
  | VArr xs => Some (length xs)
  | VStr s => Some (String.length s)
  | _ => None
  end.

(** The records the two checks of [length(min, max)] leave for a length
    of [n]. *)
Definition length_errors (min : Z) (max : option Z) (n : Z) : list record :=
  (if (n <? min)%Z then
     [[("code", VStr "length.min"); ("path", VArr []);
       ("message",
        VStr (if (min =? 0)%Z then "value cannot be empty"
              else "value must be at least " +:+ number_to_string min +:+ " in length"))]]
   else [])
  ++ (if max is Some m then
        if (m <? n)%Z then
          [[("code", VStr "length.max"); ("path", VArr []);
            ("message",
             VStr ("value cannot exceed " +:+ number_to_string m +:+ " in length"))]]
        else []
      else []).


(** The result of a run followed by a second run on its value. *)
Definition in_sequence (r1 r2 : PipelineResult) : PipelineResult :=
  {| value := value r2; valid := valid r1 && valid r2; errors := errors r1 ++ errors r2 |}.
(** * Properties *)

(** ** Records *)

#[local] Arguments String.eqb : simpl never.

Section Records.
Implicit Types (k : string) (v : jsvalue) (o : record).

Lemma lookup_assign_eq k v o : lookup_prop k (assign_prop k v o) = Some v.
Proof.
  induction o as [|[k' v'] o IH]; simpl.
  - by rewrite String.eqb_refl.
  - destruct (String.eqb_spec k' k) as [->|Hne]; simpl.
    + by rewrite String.eqb_refl.
    + by destruct (String.eqb_spec k' k).
Qed.

Lemma lookup_assign_ne k k' v o :
  k ≠ k' → lookup_prop k' (assign_prop k v o) = lookup_prop k' o.
Proof.
  intros Hne. induction o as [|[k0 v0] o IH]; simpl.
  - by destruct (String.eqb_spec k k').
  - destruct (String.eqb_spec k0 k) as [->|Hk]; simpl.
    + by destruct (String.eqb_spec k k').
    + by rewrite IH.
Qed.

Lemma assign_fresh k v o : k ∉ o.*1 → assign_prop k v o = o ++ [(k, v)].
Proof.
  induction o as [|[k' v'] o IH]; simpl; [done|].
  intros Hk. apply not_elem_of_cons in Hk as [Hne Hk].
  destruct (String.eqb_spec k' k) as [->|_]; [done|]. by rewrite IH.
Qed.

Lemma assign_keys k v o : k ∈ o.*1 → (assign_prop k v o).*1 = o.*1.
Proof.
  induction o as [|[k' v'] o IH]; csimpl; [by intros ?%elem_of_nil|].
  intros Hk. destruct (String.eqb_spec k' k) as [->|Hne]; csimpl; [done|].
  apply elem_of_cons in Hk as [->|Hk]; [done|]. by rewrite IH.
Qed.

Lemma remove_cons_eq k v o : remove_prop k ((k, v) :: o) = remove_prop k o.
Proof. unfold remove_prop. by rewrite filter_cons_False by (simpl; intros H; by apply H). Qed.

Lemma remove_cons_ne k k' v o :
  k' ≠ k → remove_prop k ((k', v) :: o) = (k', v) :: remove_prop k o.
Proof. intros Hne. unfold remove_prop. by rewrite filter_cons_True. Qed.

Lemma remove_absent k o : k ∉ o.*1 → remove_prop k o = o.
Proof.
  induction o as [|[k' v'] o IH]; csimpl; [done|].
  intros Hk. apply not_elem_of_cons in Hk as [Hne Hk].
  rewrite remove_cons_ne by done. by rewrite IH.
Qed.

(** Spreading properties with fresh, pairwise distinct keys appends
    them. *)
Lemma spread_fresh (base o : record) :
  NoDup o.*1 → (∀ k, k ∈ o.*1 → k ∉ base.*1) →
  fold_left (fun acc kv => assign_prop kv.1 kv.2 acc) o base = base ++ o.
Proof.
  revert base. induction o as [|[k v] o IH]; intros base Hnd Hdisj; simpl.
  - by rewrite app_nil_r.
  - apply NoDup_cons in Hnd as [Hk Hnd].
    rewrite assign_fresh by (apply Hdisj; simpl; left).
    rewrite IH; [by rewrite <- app_assoc|done|].
    intros k' Hk'. rewrite fmap_app. simpl. intros [?|Hin%list_elem_of_singleton]%elem_of_app.
    + eapply Hdisj; [|done]. simpl. by right.
    + by subst.
Qed.

Lemma assign_error_shaped k v e : error_shaped e → error_shaped (assign_prop k v e).
Proof.
  intros (c & p & rest & -> & Hnd & Hc & Hp). simpl.
  destruct (String.eqb_spec "code" k) as [<-|Hkc]; [by exists v, p, rest|].
  destruct (String.eqb_spec "path" k) as [<-|Hkp]; [by exists c, v, rest|].
  exists c, p, (assign_prop k v rest). split; [done|].
  destruct (decide (k ∈ rest.*1)) as [Hin|Hout].
  - by rewrite assign_keys.
  - rewrite assign_fresh, fmap_app by done. simpl. split_and!.
    + apply NoDup_app. split_and!; [done| |apply NoDup_singleton].
      intros x Hx ->%list_elem_of_singleton. done.
    + intros [?|?%list_elem_of_singleton]%elem_of_app; done.
    + intros [?|?%list_elem_of_singleton]%elem_of_app; done.
Qed.

Lemma error_record_shaped (code context : jsvalue) :
  error_shaped (spread_into [("code", code); ("path", VArr [])] context).
Proof.
  unfold spread_into.
  assert (Hbase : error_shaped [("code", code); ("path", VArr [])]).
  { exists code, (VArr []), []. split_and!; try done; [constructor|..]; by intros ?%elem_of_nil. }
  revert Hbase. generalize [("code", code); ("path", VArr [])].
  induction (own_props context) as [|[k v] o IH]; intros base Hbase; simpl; [done|].
  apply IH. by apply assign_error_shaped.
Qed.

(** Splitting [code] off such a record and handing both to [error] again
    rebuilds the record. *)
Lemma error_record_rebuild (e : record) :
  error_shaped e →
  spread_into [("code", field "code" e); ("path", VArr [])] (VObj (remove_prop "code" e)) = e.
Proof.
  intros (c & p & rest & -> & Hnd & Hc & Hp).
  rewrite remove_cons_eq, remove_cons_ne, remove_absent by done.
  unfold spread_into, field. simpl.
  rewrite spread_fresh; [done|done|].
  intros k Hk. simpl. intros [->|[->|?%elem_of_nil]%elem_of_cons]%elem_of_cons; done.
Qed.
End Records.

Lemma inherited_spec key : inherited key = true ↔ key ∈ Object_prototype.
Proof.
  unfold inherited. rewrite existsb_exists. split.
  - intros (k & Hk%list_elem_of_In & ->%String.eqb_eq). done.
  - intros Hk. exists key. split; [by apply list_elem_of_In|apply String.eqb_refl].
Qed.

Lemma lookup_prop_Some key (o : record) :
  (if lookup_prop key o is Some _ then true else false) = true ↔ key ∈ o.*1.
Proof.
  induction o as [|[k x] o IH]; simpl.
  - split; [done|by intros ?%elem_of_nil].
  - destruct (String.eqb_spec k key) as [->|Hne].
    + split; [intros _; by left|done].
    + rewrite IH. split; [by right|]. by intros [->|?]%elem_of_cons.
Qed.

(** ** One pipeline run *)

Ltac unfold_result :=
  unfold mbind, result_bind, fmap, result_fmap, mret, result_ret in *.

Lemma reported_app evs1 evs2 : reported (evs1 ++ evs2) = reported evs1 ++ reported evs2.
Proof. apply omap_app. Qed.

Lemma last_update_app evs1 evs2 v :
  last_update (evs1 ++ evs2) v = last_update evs2 (last_update evs1 v).
Proof. apply foldl_app. Qed.

Lemma call_Ok p st st' :
  call p st = Ok st' →
  st' = {| st_value := last_update (effects p) (st_value st);
           st_errors := st_errors st ++ reported (effects p) |}.
Proof.
  revert st. induction p as [|f|e k IH|k IH]; intros st; simpl.
  - intros [= <-]. destruct st; simpl. by rewrite app_nil_r.
  - done.
  - intros ->%IH. destruct e; simpl; [done|]. by rewrite <- app_assoc.
  - intros [= <-]. destruct st; simpl. by rewrite app_nil_r.
Qed.

Lemma call_thrown p st : thrown p = None → ∃ st', call p st = Ok st'.
Proof.
  revert st. induction p as [|f|e k IH|k IH]; intros st; simpl; eauto. done.
Qed.

Lemma call_Throw p st f : call p st = Throw f ↔ thrown p = Some f.
Proof.
  revert st. induction p as [|f'|e k IH|k IH]; intros st; simpl; try done.
  split; congruence.
Qed.

Lemma validationPipeline_assemble functions input :
  validationPipeline functions input
  = assemble <$> for_of functions {| st_value := input; st_errors := [] |}.
Proof. unfold validationPipeline. unfold_result. by destruct (for_of _ _). Qed.

(** Keeping the record of calls does not change what the loop computes. *)
Lemma for_of_log_erase functions index st :
  snd <$> for_of_log functions index st = for_of functions st.
Proof.
  revert index st. induction functions as [|fn rest IH]; intros index st; simpl; [done|].
  unfold_result. destruct (call _ _) as [st'|f]; [|done].
  specialize (IH (S index) st'). by destruct (for_of_log rest _ _) as [[log st'']|f].
Qed.

Lemma for_of_log_spec functions index st log st' :
  for_of_log functions index st = Ok (log, st') →
  inv_index <$> log = seq index (length functions)
  ∧ st' = {| st_value := last_update (all_effects log) (st_value st);
             st_errors := st_errors st ++ reported (all_effects log) |}
  ∧ ∀ i inv, log !! i = Some inv →
      ∃ fn, functions !! i = Some fn
            ∧ inv_value inv = last_update (all_effects (take i log)) (st_value st)
            ∧ inv_effects inv = effects (fn (inv_value inv)).
Proof.
  revert index st log st'.
  induction functions as [|fn rest IH]; intros index st log st'; simpl.
  - intros [= <- <-]. split_and!; [done| |done].
    destruct st; simpl. by rewrite app_nil_r.
  - unfold_result. destruct (call _ _) as [st1|f] eqn:Hcall; [|done].
    destruct (for_of_log rest _ _) as [[log1 st2]|f] eqn:Hrest; [|done].
    intros [= <- <-]. apply IH in Hrest as (Hidx & -> & Hchain).
    apply call_Ok in Hcall as ->. simpl in *.
    split_and!.
    + by rewrite Hidx.
    + unfold all_effects. simpl. fold (all_effects log1).
      by rewrite last_update_app, reported_app, app_assoc.
    + intros [|i] inv; simpl.
      * intros [= <-]. simpl. by exists fn.
      * intros Hinv. apply Hchain in Hinv as (fn' & Hfn' & Hval & Heff).
        exists fn'. split_and!; [done| |done].
        rewrite Hval. unfold all_effects. simpl. by rewrite last_update_app.
Qed.

(** A run that returns has a record of its calls. *)
Lemma validate_log fns input r :
  validate fns input = Ok r →
  ∃ log st, for_of_log fns 0 {| st_value := input; st_errors := [] |} = Ok (log, st)
            ∧ invocations fns input = Ok log ∧ r = assemble st.
Proof.
  unfold validate, invocations. rewrite validationPipeline_assemble.
  rewrite <- (for_of_log_erase fns 0).
  unfold_result. destruct (for_of_log _ _ _) as [[log st]|f]; [|done].
  intros [= <-]. by exists log, st.
Qed.

(** A run returns when no handler throws. *)
Lemma for_of_returns functions st :
  (∀ fn v, fn ∈ functions → thrown (fn v) = None) → ∃ st', for_of functions st = Ok st'.
Proof.
  revert st. induction functions as [|fn rest IH]; intros st Hfns; simpl; [eauto|].
  destruct (call_thrown (fn (st_value st)) st) as [st' ->]; [apply Hfns; left|].
  unfold_result. apply IH. intros fn' v Hin. apply Hfns. by right.
Qed.

Lemma validate_returns fns input :
  (∀ fn v, fn ∈ fns → thrown (fn v) = None) → ∃ r, validate fns input = Ok r.
Proof.
  intros Hfns. unfold validate. rewrite validationPipeline_assemble.
  destruct (for_of_returns fns {| st_value := input; st_errors := [] |} Hfns) as [st ->].
  by eexists.
Qed.

Lemma reported_nil evs : reported evs = [] ↔ ∀ e, e ∈ evs → is_error e = false.
Proof.
  induction evs as [|e evs IH]; simpl.
  - split; [by intros _ e ?%elem_of_nil|done].
  - destruct e as [v|c ctx]; simpl.
    + rewrite IH. split.
      * intros H e [->|?]%elem_of_cons; [done|by apply H].
      * intros H e He. apply H. by right.
    + split; [done|]. intros H. specialize (H (Error c ctx)). simpl in H.
      discriminate H. by left.
Qed.

Lemma valid_assemble st : valid (assemble st) = true ↔ errors (assemble st) = [].
Proof. simpl. by destruct (st_errors st). Qed.

(** C1.  Whenever [validate] returns, [valid] is true exactly when
    [errors] is empty; and that is the case exactly when no handler called
    [error] during the run: a run without [error] calls is valid with no
    errors, and a single [error] call makes it invalid. *)
Theorem validate_valid_iff_no_errors (fns : list Handler) (input : jsvalue)
    (r : PipelineResult) :
  validate fns input = Ok r →
  (valid r = true ↔ errors r = [])
  ∧ ∃ log, invocations fns input = Ok log
           ∧ (valid r = true ↔ ∀ e, e ∈ all_effects log → is_error e = false).
Proof.
  intros (log & st & Hlog & Hinv & ->)%validate_log.
  split; [apply valid_assemble|]. exists log. split; [done|].
  rewrite valid_assemble. apply for_of_log_spec in Hlog as (_ & -> & _). simpl.
  apply reported_nil.
Qed.

Lemma validate_valid_iff_no_errors_witness :
  let r := {| value := VStr "0"; valid := false;
              errors := [[("code", VStr "required"); ("path", VArr []);
                          ("message", VStr "value is required"); ("value", VNum 0)]] |} in
  (valid r = true ↔ errors r = [])
  ∧ ∃ log, invocations [required; stringify] (VNum 0) = Ok log
           ∧ (valid r = true ↔ ∀ e, e ∈ all_effects log → is_error e = false).
Proof.
  intros r. apply (validate_valid_iff_no_errors [required; stringify] (VNum 0) r).
  reflexivity.
Defined.

Lemma call_mute p st st' :
  call p st = Ok st' →
  call (mute p) {| st_value := st_value st; st_errors := [] |}
  = Ok {| st_value := st_value st'; st_errors := [] |}.
Proof.
  revert st. induction p as [|f|e k IH|k IH]; intros st; simpl.
  - by intros [= <-].
  - done.
  - destruct e as [v|c ctx]; simpl; intros H; by apply IH in H.
  - by intros [= <-].
Qed.

Lemma for_of_silent functions st st' :
  for_of functions st = Ok st' →
  for_of (silent <$> functions) {| st_value := st_value st; st_errors := [] |}
  = Ok {| st_value := st_value st'; st_errors := [] |}.
Proof.
  revert st. induction functions as [|fn rest IH]; intros st; simpl.
  - by intros [= <-].
  - unfold_result. destruct (call _ st) as [st1|f] eqn:Hcall; [|done].
    intros Hrest. unfold silent at 1. rewrite (call_mute _ _ _ Hcall).
    by apply IH in Hrest.
Qed.

(** C2.  The [value] [validate] returns is the argument of the last
    [update] call of the run (the input if there was none), whether or not
    [error] was called before or after it: it is the value the same
    handlers produce with every [error] call taken out, so reporting an
    error undoes no transformation. *)
Theorem validate_keeps_updates (fns : list Handler) (input : jsvalue)
    (r : PipelineResult) :
  validate fns input = Ok r →
  (∃ log, invocations fns input = Ok log
          ∧ value r = last_update (all_effects log) input)
  ∧ validate (silent <$> fns) input
    = Ok {| value := value r; valid := true; errors := [] |}.
Proof.
  intros Hr. split.
  - apply validate_log in Hr as (log & st & Hlog & Hinv & ->).
    exists log. split; [done|]. by apply for_of_log_spec in Hlog as (_ & -> & _).
  - revert Hr. unfold validate. rewrite !validationPipeline_assemble.
    destruct (for_of fns _) as [st|f] eqn:Hrun; [|done].
    intros [= <-]. apply for_of_silent in Hrun. simpl in Hrun. by rewrite Hrun.
Qed.

Lemma validate_keeps_updates_witness :
  let fns := [append_one; isType "number" is_number] in
  let r := {| value := VStr "421"; valid := false;
              errors := [[("code", VStr "is.type"); ("path", VArr []);
                          ("message", VStr "wrong type: expected number");
                          ("expectedType", VStr "number"); ("value", VStr "421")]] |} in
  (∃ log, invocations fns (VNum 42) = Ok log
          ∧ value r = last_update (all_effects log) (VNum 42))
  ∧ validate (silent <$> fns) (VNum 42)
    = Ok {| value := value r; valid := true; errors := [] |}.
Proof.
  intros fns r. apply (validate_keeps_updates fns (VNum 42) r).
  reflexivity.
Defined.

(** C3.  In a run that returns, the executor has called the handlers
    [0 .. n-1] in list order, each exactly once and each on the value left
    by the calls before it, however many [error] calls any of them made;
    the result is assembled from the state after the last call.  Calling
    [error] never ends a run: a run returns whenever no handler throws. *)
Theorem every_handler_runs_once (fns : list Handler) (input : jsvalue) :
  (∀ r, validate fns input = Ok r →
     ∃ log, invocations fns input = Ok log
       ∧ inv_index <$> log = seq 0 (length fns)
       ∧ (∀ i inv, log !! i = Some inv →
            ∃ fn, fns !! i = Some fn
                  ∧ inv_value inv = last_update (all_effects (take i log)) input
                  ∧ inv_effects inv = effects (fn (inv_value inv)))
       ∧ r = assemble {| st_value := last_update (all_effects log) input;
                         st_errors := reported (all_effects log) |})
  ∧ ((∀ fn v, fn ∈ fns → thrown (fn v) = None) → ∃ r, validate fns input = Ok r).
Proof.
  split; [|apply validate_returns].
  intros r (log & st & Hlog & Hinv & ->)%validate_log.
  apply for_of_log_spec in Hlog as (Hidx & -> & Hchain).
  exists log. by split_and!.
Qed.

Lemma every_handler_runs_once_witness :
  let fns := [required; required; stringify; isType "number" is_number] in
  let e0 := [("code", VStr "required"); ("path", VArr []);
             ("message", VStr "value is required"); ("value", VNum 0)] in
  let e1 := [("code", VStr "is.type"); ("path", VArr []);
             ("message", VStr "wrong type: expected number");
             ("expectedType", VStr "number"); ("value", VStr "0")] in
  let r := {| value := VStr "0"; valid := false; errors := [e0; e0; e1] |} in
  validate fns (VNum 0) = Ok r
  ∧ ∃ log, invocations fns (VNum 0) = Ok log
      ∧ inv_index <$> log = [0; 1; 2; 3]
      ∧ (∀ i inv, log !! i = Some inv →
           ∃ fn, fns !! i = Some fn
                 ∧ inv_value inv = last_update (all_effects (take i log)) (VNum 0)
                 ∧ inv_effects inv = effects (fn (inv_value inv)))
      ∧ r = assemble {| st_value := last_update (all_effects log) (VNum 0);
                        st_errors := reported (all_effects log) |}.
Proof.
  intros fns e0 e1 r. split; [reflexivity|].
  apply (proj1 (every_handler_runs_once fns (VNum 0)) r). reflexivity.
Defined.

(** ** A schema used as a handler *)

Lemma effects_emit_all evs k : effects (emit_all evs k) = evs ++ effects k.
Proof. induction evs as [|e evs IH]; simpl; [done|]. by rewrite IH. Qed.

Lemma thrown_emit_all evs k : thrown (emit_all evs k) = thrown k.
Proof. by induction evs as [|e evs IH]. Qed.

Lemma synchronous_emit_all evs k : synchronous (emit_all evs k) = synchronous k.
Proof. by induction evs as [|e evs IH]. Qed.

Lemma handler_unfold fns input :
  handler fns input
  = match validate fns input with
    | Throw f => Fail f
    | Ok r => emit_all ((forwarded <$> errors r) ++ [Update (value r)]) Done
    end.
Proof.
  unfold handler. destruct (validate fns input) as [r|f]; [|done].
  unfold emit_all. rewrite foldr_app. simpl.
  by induction (errors r) as [|e es IH]; simpl; [|rewrite IH].
Qed.

Lemma reported_forwarded es :
  Forall error_shaped es → reported (forwarded <$> es) = es.
Proof.
  induction 1 as [|e es He _ IH]; [done|].
  change (reported (forwarded <$> e :: es))
    with (error_record (field "code" e) (VObj (remove_prop "code" e))
            :: reported (forwarded <$> es)).
  unfold error_record. by rewrite error_record_rebuild, IH.
Qed.

Lemma last_update_forwarded es v : last_update (forwarded <$> es) v = v.
Proof. by induction es as [|e es IH]. Qed.

Lemma reported_shaped evs : Forall error_shaped (reported evs).
Proof.
  induction evs as [|[v|c ctx] evs IH]; simpl; [done|done|].
  constructor; [apply error_record_shaped|done].
Qed.

(** Every record a run returns was built by the executor's [error]. *)
Lemma validate_errors_shaped fns input r :
  validate fns input = Ok r → Forall error_shaped (errors r).
Proof.
  intros (log & st & Hlog & _ & ->)%validate_log.
  apply for_of_log_spec in Hlog as (_ & -> & _). simpl. apply reported_shaped.
Qed.

(** C10.  A schema wrapped in a schema validates exactly as the schema
    itself: same value, same validity, same errors, and the same fault
    when a handler throws.  On the way each error record is split into
    its code and the rest and put together again unchanged. *)
Theorem schema_in_schema (fns : list Handler) (input : jsvalue) :
  validate [schema fns] input = validate fns input
  ∧ match validate fns input with
    | Ok r =>
        schema fns input = emit_all ((forwarded <$> errors r) ++ [Update (value r)]) Done
        ∧ reported (forwarded <$> errors r) = errors r
    | Throw f => schema fns input = Fail f
    end.
Proof.
  unfold schema. rewrite handler_unfold. unfold validate at 1.
  rewrite validationPipeline_assemble. simpl. rewrite handler_unfold.
  destruct (validate fns input) as [r|f] eqn:Hr; [|done].
  pose proof (validate_errors_shaped _ _ _ Hr) as Hshaped.
  rewrite reported_forwarded by done. split; [|done].
  destruct (call_thrown (emit_all ((forwarded <$> errors r) ++ [Update (value r)]) Done)
              {| st_value := input; st_errors := [] |}) as [st' Hst'];
    [by rewrite thrown_emit_all|].
  rewrite Hst'. apply call_Ok in Hst' as ->.
  rewrite effects_emit_all, app_nil_r, last_update_app, reported_app, reported_forwarded by done.
  simpl. rewrite app_nil_r. apply validate_log in Hr as (log & st & _ & _ & ->).
  by destruct st.
Qed.

(** ** Invocations over the store *)

Lemma read_errors_cells h st : Store.read_errors (length h) (cells h st) = st_errors st.
Proof. unfold Store.read_errors, cells. by rewrite list_lookup_middle. Qed.

Lemma read_value_cells h st : Store.read_value (S (length h)) (cells h st) = st_value st.
Proof.
  unfold Store.read_value, cells. rewrite lookup_app_r by lia.
  by replace (S (length h) - length h) with 1 by lia.
Qed.

Lemma callback_cells h e st :
  Store.callback (scope_on h) e (cells h st) = cells h (callback e st).
Proof.
  destruct e as [v|c ctx]; simpl.
  - unfold Store.update, cells. simpl. rewrite insert_app_r_alt by lia.
    by replace (S (length h) - length h) with 1 by lia.
  - unfold Store.error. simpl. rewrite read_errors_cells.
    unfold cells. rewrite insert_app_r_alt by lia.
    by replace (length h - length h) with 0 by lia.
Qed.

Lemma call_cells h p st :
  Store.call (scope_on h) p (cells h st) = cells h <$> call p st.
Proof.
  revert st. induction p as [|f|e k IH|k IH]; intros st; simpl; try done.
  by rewrite callback_cells, IH.
Qed.

Lemma for_of_cells h functions st :
  Store.for_of (scope_on h) functions (cells h st) = cells h <$> for_of functions st.
Proof.
  revert st. induction functions as [|fn rest IH]; intros st; simpl; [done|].
  rewrite read_value_cells, call_cells. unfold_result.
  destruct (call _ st) as [st'|f]; [|done]. apply IH.
Qed.

(** The invocation over the store computes what the executor computes,
    in two cells of its own, and leaves every other cell as it was. *)
Lemma execValidationPipeline_cells functions input h :
  Store.execValidationPipeline functions input h
  = (fun r => ({| Store.value := value r; Store.valid := valid r;
                  Store.errors := length h |},
               cells h {| st_value := value r; st_errors := errors r |}))
    <$> validationPipeline functions input.
Proof.
  unfold Store.execValidationPipeline. rewrite validationPipeline_assemble.
  change (h ++ [Store.Accumulator []; Store.Binding input])
    with (cells h {| st_value := input; st_errors := [] |}).
  change {| Store.errors_at := length h; Store.value_at := S (length h) |}
    with (scope_on h).
  rewrite for_of_cells. unfold_result.
  destruct (for_of functions _) as [st|f]; [|done]. simpl.
  by rewrite read_errors_cells, read_value_cells.
Qed.

(** C9.  Two calls of [validate] with the same input, the second run in
    the store the first one left behind, return the same value, the same
    validity and equal errors.  Each call has an accumulator of its own:
    the two [errors] arrays are different objects, and the second call
    writes to no cell that existed before it, the first result's array
    included. *)
Theorem validate_twice (fns : list Handler) (input : jsvalue) (h h1 : list Store.cell)
    (r1 : Store.PipelineResultRef) :
  Store.validate fns input h = Ok (r1, h1) →
  ∃ r2 h2,
    Store.validate fns input h1 = Ok (r2, h2)
    ∧ Store.value r2 = Store.value r1
    ∧ Store.valid r2 = Store.valid r1
    ∧ Store.read_errors (Store.errors r2) h2 = Store.read_errors (Store.errors r1) h1
    ∧ Store.errors r2 ≠ Store.errors r1
    ∧ h1 `prefix_of` h2
    ∧ validate fns input
      = Ok {| value := Store.value r1; valid := Store.valid r1;
              errors := Store.read_errors (Store.errors r1) h1 |}.
Proof.
  unfold Store.validate, validate. rewrite !execValidationPipeline_cells.
  destruct (validationPipeline fns input) as [r|f]; [|done]. simpl.
  intros [= <- <-]. eexists _, _. split; [done|]. simpl.
  rewrite !read_errors_cells. simpl. split_and!; try done.
  - unfold cells. rewrite length_app. simpl. lia.
  - by eexists.
  - by destruct r.
Qed.

Lemma validate_twice_witness :
  let fns := [required; append_one] in
  let e := [("code", VStr "required"); ("path", VArr []);
            ("message", VStr "value is required"); ("value", VStr "")] in
  let h := [Store.Binding VNull] in
  let h1 := h ++ [Store.Accumulator [e]; Store.Binding (VStr "1")] in
  let r1 := {| Store.value := VStr "1"; Store.valid := false; Store.errors := 1 |} in
  ∃ r2 h2,
    Store.validate fns (VStr "") h1 = Ok (r2, h2)
    ∧ Store.value r2 = Store.value r1
    ∧ Store.valid r2 = Store.valid r1
    ∧ Store.read_errors (Store.errors r2) h2 = Store.read_errors (Store.errors r1) h1
    ∧ Store.errors r2 ≠ Store.errors r1
    ∧ h1 `prefix_of` h2
    ∧ validate fns (VStr "")
      = Ok {| value := Store.value r1; valid := Store.valid r1;
              errors := Store.read_errors (Store.errors r1) h1 |}.
Proof.
  intros fns e h h1 r1. apply (validate_twice fns (VStr "") h h1 r1). reflexivity.
Defined.

(** ** Paths *)

Lemma lookup_prop_None k (o : record) : k ∉ o.*1 → lookup_prop k o = None.
Proof.
  induction o as [|[k' v'] o IH]; csimpl; [done|].
  intros [Hne Hk]%not_elem_of_cons. destruct (String.eqb_spec k' k); [done|by apply IH].
Qed.

(** A spread of properties with distinct keys overrides what was there
    and leaves the rest. *)
Lemma lookup_fold_assign k (o base : record) :
  NoDup (o.*1) →
  lookup_prop k (fold_left (fun acc kv => assign_prop kv.1 kv.2 acc) o base)
  = match lookup_prop k o with
    | Some v => Some v
    | None => lookup_prop k base
    end.
Proof.
  revert base. induction o as [|[k0 v0] o IH]; intros base Hnd; [done|].
  apply NoDup_cons in Hnd as [Hk0 Hnd]. simpl. rewrite IH by done.
  destruct (String.eqb_spec k0 k) as [->|Hne].
  - by rewrite lookup_prop_None, lookup_assign_eq.
  - by rewrite lookup_assign_ne.
Qed.

(** What the executor records for an error the combinator relays: the
    nested record with the segment put in front of its path. *)
Lemma relayed_record segment c p (rest : record) :
  NoDup (rest.*1) → ("code" ∉ rest.*1) → ("path" ∉ rest.*1) →
  reported [relayed segment (("code", c) :: ("path", p) :: rest)]
  = [("code", c) :: ("path", VArr (concat [segment] (or_else p (VArr [])))) :: rest].
Proof.
  intros Hnd Hc Hp. unfold reported, relayed, error_record, prefix_context. simpl.
  rewrite remove_cons_eq, remove_cons_ne, remove_absent by done.
  unfold spread_into, field. simpl.
  rewrite (spread_fresh [("path", p)] rest); [|done|].
  2:{ intros k Hk [->|?%elem_of_nil]%elem_of_cons; done. }
  simpl. rewrite spread_fresh; [done|done|].
  intros k Hk. simpl. intros [->|[->|?%elem_of_nil]%elem_of_cons]%elem_of_cons; done.
Qed.

Lemma reported_relayed segment es :
  Forall error_shaped es →
  Forall2 (path_prefixed segment) es (reported (relayed segment <$> es))
  ∧ Forall error_shaped (reported (relayed segment <$> es)).
Proof.
  induction 1 as [|e es (c & p & rest & -> & Hnd & Hc & Hp) _ [IH1 IH2]]; [done|].
  change (reported (relayed segment <$> (("code", c) :: ("path", p) :: rest) :: es))
    with (reported [relayed segment (("code", c) :: ("path", p) :: rest)]
            ++ reported (relayed segment <$> es)).
  rewrite relayed_record by done. simpl. split; constructor; try done.
  by exists c, (VArr (concat [segment] (or_else p (VArr [])))), rest.
Qed.

Lemma last_update_relayed segment es v : last_update (relayed segment <$> es) v = v.
Proof. by induction es as [|e es IH]. Qed.

Lemma concat_begins segment v : ∃ rest, concat [segment] v = segment :: rest.
Proof. destruct v; simpl; eauto. Qed.

Lemma call_emit_all_Done evs st :
  call (emit_all evs Done) st
  = Ok {| st_value := last_update evs (st_value st);
          st_errors := st_errors st ++ reported evs |}.
Proof.
  destruct (call_thrown (emit_all evs Done) st) as [st' Hst'];
    [by rewrite thrown_emit_all|].
  rewrite Hst'. apply call_Ok in Hst' as ->.
  by rewrite effects_emit_all, app_nil_r.
Qed.

Lemma validate_singleton fn input :
  validate [fn] input = assemble <$> call (fn input) {| st_value := input; st_errors := [] |}.
Proof.
  unfold validate. rewrite validationPipeline_assemble. simpl. unfold_result.
  by destruct (call _ _).
Qed.

Section RelayErrors.
Context {S : Type}.
Variable onUpdate : jsvalue -> S -> result (event * S).
Variable onError : jsvalue -> jsvalue -> S -> result (event * S).
Variable segment : jsvalue.
Hypothesis onError_prefixes : ∀ code context s,
  onError code (VObj context) s = Ok (Error code (prefix_context segment context), s).

Lemma relay_forwarded es p s k :
  relay onUpdate onError (emit_all (forwarded <$> es) p) s k
  = emit_all (relayed segment <$> es) (relay onUpdate onError p s k).
Proof.
  induction es as [|e es IH]; [done|].
  change (relay onUpdate onError (emit_all (forwarded <$> e :: es) p) s k)
    with (match onError (field "code" e) (VObj (remove_prop "code" e)) s with
          | Throw f => Fail f
          | Ok (e', s') =>
              Emit e' (relay onUpdate onError (emit_all (forwarded <$> es) p) s' k)
          end).
  by rewrite onError_prefixes, IH.
Qed.
End RelayErrors.

Lemma keyError_prefixes name code context s :
  keyError name code (VObj context) s = Ok (Error code (prefix_context (VStr name) context), s).
Proof. by destruct s. Qed.

Lemma itemError_prefixes index code context s :
  itemError index code (VObj context) s
  = Ok (Error code (prefix_context (VNum (Z.of_nat index)) context), s).
Proof. done. Qed.

Lemma emit_all_app evs1 evs2 k : emit_all (evs1 ++ evs2) k = emit_all evs1 (emit_all evs2 k).
Proof. apply foldr_app. Qed.

(** What a [key] handler does, spelled out. *)
Lemma key_unfold name fns v :
  key name fns v
  = match get_prop v name with
    | Throw f => Fail f
    | Ok input =>
        match validate fns input with
        | Throw f => Fail f
        | Ok r =>
            emit_all ((relayed (VStr name) <$> errors r)
                        ++ [Update (VObj (assign_prop name (value r) (spread_into [] v)))])
                     Done
        end
    end.
Proof.
  unfold key, schema. destruct (get_prop v name) as [input|f]; [|done].
  rewrite handler_unfold. destruct (validate fns input) as [r|f]; [|done].
  rewrite !emit_all_app.
  by rewrite (relay_forwarded _ _ (VStr name) (keyError_prefixes name)).
Qed.

Lemma key_validate name fns input r :
  validate [key name fns] input = Ok r →
  ∃ sub r', get_prop input name = Ok sub
            ∧ validate fns sub = Ok r'
            ∧ errors r = reported (relayed (VStr name) <$> errors r')
            ∧ value r = VObj (assign_prop name (value r') (spread_into [] input)).
Proof.
  rewrite validate_singleton, key_unfold.
  destruct (get_prop input name) as [sub|f]; [|done].
  destruct (validate fns sub) as [r'|f] eqn:Hr'; [|done].
  rewrite call_emit_all_Done. simpl. intros [= <-]. exists sub, r'. simpl.
  rewrite reported_app, last_update_app, last_update_relayed. simpl.
  by rewrite app_nil_r.
Qed.

Lemma path_prefixed_begins segment e' e :
  path_prefixed segment e' e → path_begins [segment] e.
Proof.
  unfold path_begins. intros [_ ->].
  destruct (concat_begins segment (or_else (field "path" e') (VArr []))) as [rest ->].
  by exists rest.
Qed.

Lemma path_prefixed_extends segment segments e' e :
  path_prefixed segment e' e → path_begins segments e' → path_begins (segment :: segments) e.
Proof. unfold path_begins. intros [_ ->] [rest ->]. by exists rest. Qed.

(** C4.  Every error a [key(name, ...)] handler lets through has [name] as
    the first element of its path, in front of whatever path the nested
    schema reported; with further [key]s nested inside, the path begins
    with all the names, outermost first. *)
Theorem key_prefixes_paths (name : string) (names : list string) (fns : list Handler)
    (input : jsvalue) (r : PipelineResult) :
  validate [key name (nested_keys names fns)] input = Ok r →
  Forall (path_begins (VStr <$> name :: names)) (errors r)
  ∧ ∃ sub r', get_prop input name = Ok sub
              ∧ validate (nested_keys names fns) sub = Ok r'
              ∧ Forall2 (path_prefixed (VStr name)) (errors r') (errors r).
Proof.
  revert name input r. induction names as [|name' names IH]; intros name input r Hr.
  - apply key_validate in Hr as (sub & r' & Hsub & Hr' & -> & _).
    pose proof (reported_relayed (VStr name) _ (validate_errors_shaped _ _ _ Hr')) as [H2 _].
    split; [|by exists sub, r'].
    induction H2 as [|e' e es' es He _ IHes]; constructor; [|done].
    by eapply path_prefixed_begins.
  - apply key_validate in Hr as (sub & r' & Hsub & Hr' & -> & _).
    pose proof (reported_relayed (VStr name) _ (validate_errors_shaped _ _ _ Hr')) as [H2 _].
    split; [|by exists sub, r'].
    simpl in Hr'. apply IH in Hr' as [Hbegins _].
    revert Hbegins. induction H2 as [|e' e es' es He _ IHes]; intros Hbegins; [done|].
    apply Forall_cons in Hbegins as [He' Hes']. constructor; [|by apply IHes].
    by eapply path_prefixed_extends.
Qed.

Lemma key_prefixes_paths_witness :
  let fns := [isType "string" is_string] in
  let input := VObj [("name", VObj [("first", VNum 42)])] in
  let r := {| value := input; valid := false;
              errors := [[("code", VStr "is.type");
                          ("path", VArr [VStr "name"; VStr "first"]);
                          ("message", VStr "wrong type: expected string");
                          ("expectedType", VStr "string"); ("value", VNum 42)]] |} in
  Forall (path_begins [VStr "name"; VStr "first"]) (errors r)
  ∧ ∃ sub r', get_prop input "name" = Ok sub
              ∧ validate (nested_keys ["first"] fns) sub = Ok r'
              ∧ Forall2 (path_prefixed (VStr "name")) (errors r') (errors r).
Proof.
  intros fns input r. apply (key_prefixes_paths "name" ["first"] fns input r). reflexivity.
Defined.

(** ** Array items *)

Lemma index_key_inj i j : index_key i = index_key j → i = j.
Proof.
  unfold index_key. intros H.
  apply (f_equal NilEmpty.uint_of_string) in H. rewrite !NilEmpty.usu in H.
  injection H as H. apply (f_equal Nat.of_uint) in H.
  by rewrite !DecimalNat.Unsigned.of_to in H.
Qed.

Lemma index_key_not_length i : String.eqb (index_key i) "length" = false.
Proof.
  destruct (String.eqb_spec (index_key i) "length") as [H|]; [|done].
  apply (f_equal NilEmpty.uint_of_string) in H. unfold index_key in H.
  by rewrite NilEmpty.usu in H.
Qed.

Lemma array_index_key i len : i < len → array_index (index_key i) len = Some i.
Proof.
  unfold array_index. intros Hi.
  enough (∀ start, start ≤ i < start + len →
            find (fun j => String.eqb (index_key j) (index_key i)) (seq start len) = Some i)
    as H by (apply H; lia).
  clear Hi. induction len as [|len IH]; intros start Hi; [lia|]. simpl.
  destruct (String.eqb_spec (index_key start) (index_key i)) as [Heq|Hne].
  - by apply index_key_inj in Heq as ->.
  - apply IH. destruct (decide (start = i)) as [->|]; [done|lia].
Qed.

Lemma get_prop_length (xs : list jsvalue) :
  get_prop (VArr xs) "length" = Ok (VNum (Z.of_nat (length xs))).
Proof. done. Qed.

Lemma get_prop_index (xs : list jsvalue) i x :
  xs !! i = Some x → get_prop (VArr xs) (index_key i) = Ok x.
Proof.
  intros Hx. simpl. rewrite index_key_not_length.
  rewrite array_index_key by (by eapply lookup_lt_Some). simpl. by rewrite Hx.
Qed.

Lemma js_lt_length i n : js_lt i (VNum (Z.of_nat n)) = bool_decide (i < n).
Proof.
  unfold js_lt. simpl. case_bool_decide.
  - apply Z.ltb_lt. lia.
  - apply Z.ltb_ge. lia.
Qed.

Lemma iterations_array (xs : list jsvalue) : iterations (VArr xs) = length xs.
Proof. unfold iterations. simpl. apply Nat2Z.id. Qed.

Lemma array_set_middle (l1 l2 : list jsvalue) x y :
  array_set (length l1) y (l1 ++ x :: l2) = l1 ++ y :: l2.
Proof.
  unfold array_set. rewrite decide_True by (rewrite length_app; simpl; lia).
  rewrite insert_app_r_alt by lia. by replace (length l1 - length l1) with 0 by lia.
Qed.

(** The loop from position [length seen] on, over a sequence whose
    elements before that position have already been replaced. *)
Lemma items_loop_from fns (seen : list PipelineResult) (xs : list jsvalue)
    (rs : list PipelineResult) fuel :
  Forall2 (fun x r => validate fns x = Ok r) xs rs →
  length xs < fuel →
  items_loop fuel (schema fns) (VArr ((value <$> seen) ++ xs)) (length seen)
  = emit_all
      (mjoin (imap (fun j r =>
                item_step (length seen + j) r
                  ((value <$> seen) ++ (value <$> take (S j) rs) ++ drop (S j) xs)) rs))
      Done.
Proof.
  intros Hrs. revert seen fuel.
  induction Hrs as [|x r xs rs Hr _ IH]; intros seen fuel Hfuel.
  - destruct fuel as [|fuel]; [simpl in Hfuel; lia|]. simpl.
    rewrite js_lt_length, bool_decide_false; [done|].
    rewrite app_nil_r, length_fmap. lia.
  - destruct fuel as [|fuel]; [simpl in Hfuel; lia|].
    cbn [items_loop]. rewrite get_prop_length, js_lt_length, bool_decide_true.
    2:{ rewrite length_app, length_fmap. simpl. lia. }
    rewrite (get_prop_index _ _ x).
    2:{ rewrite <- (length_fmap value seen). apply list_lookup_middle. done. }
    change (schema fns x) with (handler fns x).
    rewrite handler_unfold, Hr, emit_all_app.
    rewrite (relay_forwarded _ _ (VNum (Z.of_nat (length seen))) (itemError_prefixes _)).
    cbn [emit_all foldr relay on itemUpdate iterate mbind result_bind].
    assert (array_set (length seen) (value r) ((value <$> seen) ++ x :: xs)
            = (value <$> seen) ++ value r :: xs) as ->.
    { rewrite <- (length_fmap value seen). apply array_set_middle. }
    specialize (IH (seen ++ [r]) fuel). rewrite length_app in IH. simpl in IH.
    replace (length seen + 1) with (S (length seen)) in IH by lia.
    rewrite fmap_app, <- app_assoc in IH. simpl in IH.
    rewrite IH by (simpl in Hfuel; lia).
    rewrite imap_cons. cbn [mjoin list_join]. rewrite emit_all_app.
    unfold item_step at 2. rewrite emit_all_app, Nat.add_0_r.
    cbn [take drop fmap list_fmap emit_all foldr].
    do 4 f_equal. apply imap_ext. intros j r' _. cbn [compose].
    replace (length seen + S j) with (S (length seen + j)) by lia.
    f_equal. by rewrite <- app_assoc.
Qed.

Lemma reported_mjoin_imap (f : nat → PipelineResult → list event)
    (g : nat → PipelineResult → list record) rs :
  (∀ i r, reported (f i r) = g i r) →
  reported (mjoin (imap f rs)) = mjoin (imap g rs).
Proof.
  revert f g. induction rs as [|r rs IH]; intros f g Hfg; [done|].
  rewrite !imap_cons. cbn [mjoin list_join]. rewrite reported_app, Hfg.
  f_equal. apply IH. intros i r'. apply Hfg.
Qed.

Lemma reported_item_step i r now :
  reported (item_step i r now) = reported (relayed (VNum (Z.of_nat i)) <$> errors r).
Proof. unfold item_step. rewrite reported_app. simpl. apply app_nil_r. Qed.

Lemma last_update_item_step i r now v : last_update (item_step i r now) v = VArr now.
Proof. unfold item_step. by rewrite last_update_app, last_update_relayed. Qed.

Lemma last_update_items (xs : list jsvalue) (rs : list PipelineResult) :
  length xs = length rs →
  last_update
    (mjoin (imap (fun i r => item_step i r ((value <$> take (S i) rs) ++ drop (S i) xs)) rs))
    (VArr xs)
  = VArr (value <$> rs).
Proof.
  intros Hlen. destruct rs as [|r0 rs0] using rev_ind.
  - by destruct xs.
  - clear IHrs0. rewrite imap_app. cbn [imap]. rewrite join_app.
    cbn [mjoin list_join]. rewrite app_nil_r, last_update_app, last_update_item_step.
    rewrite Nat.add_0_r. f_equal.
    rewrite take_ge by (rewrite length_app; simpl; lia).
    rewrite drop_ge by (rewrite Hlen, length_app; simpl; lia).
    apply app_nil_r.
Qed.

(** C5.  Over an array, [items] works through the positions in order.  At
    position [i] it passes on the errors of the nested schema with [i] put
    in front of their paths, and then calls [update] with a copy of the
    sequence in which the elements up to and including [i] are the nested
    results and the elements after [i] are still the original ones: a
    replacement made at one position is there at every later position,
    and no position already behind is touched again.  The run ends with
    every element replaced by its nested result. *)
Theorem items_left_to_right (fns : list Handler) (xs : list jsvalue)
    (rs : list PipelineResult) :
  Forall2 (fun x r => validate fns x = Ok r) xs rs →
  items fns (VArr xs)
  = emit_all
      (mjoin (imap (fun i r =>
                (relayed (VNum (Z.of_nat i)) <$> errors r)
                  ++ [Update (VArr ((value <$> take (S i) rs) ++ drop (S i) xs))]) rs))
      Done
  ∧ validate [items fns] (VArr xs)
    = Ok (assemble
            {| st_value := VArr (value <$> rs);
               st_errors :=
                 mjoin (imap (fun i r =>
                          reported (relayed (VNum (Z.of_nat i)) <$> errors r)) rs) |})
  ∧ ∀ i r, rs !! i = Some r →
      Forall2 (path_prefixed (VNum (Z.of_nat i))) (errors r)
        (reported (relayed (VNum (Z.of_nat i)) <$> errors r))
      ∧ Forall (path_begins [VNum (Z.of_nat i)])
          (reported (relayed (VNum (Z.of_nat i)) <$> errors r)).
Proof.
  intros Hrs.
  assert (items fns (VArr xs)
          = emit_all
              (mjoin (imap (fun i r =>
                 item_step i r ((value <$> take (S i) rs) ++ drop (S i) xs)) rs)) Done)
    as Hitems.
  { unfold items. rewrite iterations_array.
    apply (items_loop_from fns [] xs rs (S (length xs)) Hrs). lia. }
  split_and!.
  - done.
  - rewrite validate_singleton, Hitems, call_emit_all_Done. simpl.
    rewrite last_update_items by (by eapply Forall2_length).
    by rewrite (reported_mjoin_imap _ _ _ (fun i r => reported_item_step i r _)).
  - intros i r Hr.
    assert (Forall error_shaped (errors r)) as Hshaped.
    { apply (Forall2_lookup_r _ _ _ _ _ Hrs) in Hr as (x & _ & Hx).
      by eapply validate_errors_shaped. }
    destruct (reported_relayed (VNum (Z.of_nat i)) _ Hshaped) as [H2 _].
    split; [done|].
    induction H2 as [|e' e es' es He _ IHes]; constructor.
    + by eapply path_prefixed_begins.
    + apply IHes. by apply Forall_inv_tail in Hshaped.
Qed.

Lemma items_left_to_right_witness :
  let fns := [isType "number" is_number; double] in
  let xs := [VNum 1; VStr "3"; VNum 4] in
  let e := [("code", VStr "is.type"); ("path", VArr []);
            ("message", VStr "wrong type: expected number");
            ("expectedType", VStr "number"); ("value", VStr "3")] in
  let rs := [ {| value := VNum 2; valid := true; errors := [] |};
              {| value := VStr "3"; valid := false; errors := [e] |};
              {| value := VNum 8; valid := true; errors := [] |} ] in
  items fns (VArr xs)
  = emit_all
      (mjoin (imap (fun i r =>
                (relayed (VNum (Z.of_nat i)) <$> errors r)
                  ++ [Update (VArr ((value <$> take (S i) rs) ++ drop (S i) xs))]) rs))
      Done
  ∧ validate [items fns] (VArr xs)
    = Ok (assemble
            {| st_value := VArr (value <$> rs);
               st_errors :=
                 mjoin (imap (fun i r =>
                          reported (relayed (VNum (Z.of_nat i)) <$> errors r)) rs) |})
  ∧ ∀ i r, rs !! i = Some r →
      Forall2 (path_prefixed (VNum (Z.of_nat i))) (errors r)
        (reported (relayed (VNum (Z.of_nat i)) <$> errors r))
      ∧ Forall (path_begins [VNum (Z.of_nat i)])
          (reported (relayed (VNum (Z.of_nat i)) <$> errors r)).
Proof.
  intros fns xs e rs. apply (items_left_to_right fns xs rs).
  repeat constructor.
Defined.

(** ** The two modes *)

Lemma settle_bind {A B} (m : promise A) (k : A → promise B) :
  settle (m ≫= k) = settle m ≫= (fun a => settle (k a)).
Proof. induction m as [a|f|m IH]; simpl; try done. Qed.

Lemma settle_fmap {A B} (g : A → B) (m : promise A) : settle (g <$> m) = g <$> settle m.
Proof. induction m as [a|f|m IH]; simpl; try done. Qed.

Lemma turns_bind {A B} (m : promise A) (k : A → promise B) :
  turns (m ≫= k) = turns m + match settle m with
                             | Ok a => turns (k a)
                             | Throw _ => 0
                             end.
Proof. induction m as [a|f|m IH]; simpl; try done. by rewrite <- IH. Qed.

Lemma settle_awaitCall p st : settle (awaitCall p st) = call (awaited p) st.
Proof. revert st. induction p as [|f|e k IH|k IH]; intros st; simpl; try done. Qed.

Lemma awaited_synchronous p : synchronous p = true → awaited p = p.
Proof. induction p as [|f|e k IH|k IH]; simpl; try done. by intros ->%IH. Qed.

Lemma turns_awaitCall p st : synchronous p = true → thrown p = None → turns (awaitCall p st) = 1.
Proof. revert st. induction p as [|f|e k IH|k IH]; intros st; simpl; try done. by auto. Qed.

Lemma settle_for_await functions st :
  settle (for_await functions st) = for_of (completed <$> functions) st.
Proof.
  revert st. induction functions as [|fn rest IH]; intros st; [done|].
  cbn [for_await for_of fmap list_fmap]. rewrite settle_bind, settle_awaitCall.
  unfold completed at 1. unfold_result. destruct (call _ st) as [st'|f]; [|done]. apply IH.
Qed.

Lemma settle_for_await_log functions index st :
  settle (for_await_log functions index st) = for_of_log (completed <$> functions) index st.
Proof.
  revert index st. induction functions as [|fn rest IH]; intros index st; [done|].
  cbn [for_await_log for_of_log fmap list_fmap]. rewrite settle_bind, settle_awaitCall.
  unfold completed at 1 2. unfold_result. destruct (call _ st) as [st'|f]; [|done].
  rewrite settle_bind, IH. unfold_result.
  by destruct (for_of_log _ _ _) as [[log st'']|f].
Qed.

Lemma completed_synchronous functions :
  Forall (fun fn => ∀ v, synchronous (fn v) = true) functions →
  Forall2 (fun fn fn' => ∀ v, fn' v = fn v) functions (completed <$> functions).
Proof.
  induction 1 as [|fn rest Hfn _ IH]; constructor; [|done].
  intros v. by apply awaited_synchronous.
Qed.

Lemma for_of_log_ext functions functions' index st :
  Forall2 (fun fn fn' => ∀ v, fn' v = fn v) functions functions' →
  for_of_log functions' index st = for_of_log functions index st.
Proof.
  intros H. revert index st. induction H as [|fn fn' rest rest' Hfn _ IH]; intros index st; [done|].
  cbn [for_of_log]. rewrite Hfn. unfold_result. destruct (call _ st) as [st'|f]; [|done].
  by rewrite IH.
Qed.

Lemma for_of_ext functions functions' st :
  Forall2 (fun fn fn' => ∀ v, fn' v = fn v) functions functions' →
  for_of functions' st = for_of functions st.
Proof.
  intros H. rewrite <- !(for_of_log_erase _ 0). by rewrite (for_of_log_ext _ _ _ _ H).
Qed.

(** The asynchronous mode awaits every handler: it settles to what the
    synchronous executor computes from the handlers run to completion. *)
Lemma validateAsync_awaits fns input :
  settle (validateAsync fns input) = validate (completed <$> fns) input.
Proof.
  unfold validateAsync, await, validationPipelineAsync, validate.
  rewrite validationPipeline_assemble, !settle_bind, settle_for_await.
  unfold_result. by destruct (for_of _ _).
Qed.

Lemma invocationsAsync_awaits fns input :
  settle (invocationsAsync fns input) = invocations (completed <$> fns) input.
Proof. unfold invocationsAsync, invocations. by rewrite settle_fmap, settle_for_await_log. Qed.

Lemma turns_for_await functions st st' :
  Forall (fun fn => ∀ v, synchronous (fn v) = true) functions →
  for_of functions st = Ok st' →
  turns (for_await functions st) = length functions.
Proof.
  intros Hsync. revert st. induction Hsync as [|fn rest Hfn Hrest IH]; intros st; [done|].
  cbn [for_await for_of]. rewrite turns_bind, settle_awaitCall.
  rewrite awaited_synchronous by done. unfold_result.
  destruct (call _ st) as [st1|f] eqn:Hcall; [|done]. intros Hst'.
  rewrite turns_awaitCall, (IH _ Hst'); [done|done|].
  destruct (thrown (fn (st_value st))) as [f|] eqn:Hthrown; [|done].
  apply (call_Throw _ st) in Hthrown. congruence.
Qed.

(** C6 does not extend to a handler that updates after suspending:
    [validate] returns before the update, [validateAsync] waits for
    it. *)
Lemma validateAsync_differs :
  validate [late_update] (VNum 0) = Ok {| value := VNum 0; valid := true; errors := [] |}
  ∧ settle (validateAsync [late_update] (VNum 0))
    = Ok {| value := VNum 1; valid := true; errors := [] |}
  ∧ settle (validateAsync [late_update] (VNum 0)) ≠ validate [late_update] (VNum 0).
Proof. by split_and!. Qed.

(** C6, for handlers that finish before they return.  The asynchronous
    mode awaits each handler before it calls the next: it settles to what
    the executor computes from the handlers run to completion, with the
    same calls in the same order.  For handlers that finish before they
    return this is exactly what the synchronous mode returns -- the same
    value, validity and errors, or the same fault -- and all the
    asynchronous mode adds is one suspension after each handler and one
    before it hands over the result. *)
Theorem validateAsync_agrees (fns : list Handler) (input : jsvalue) :
  settle (validateAsync fns input) = validate (completed <$> fns) input
  ∧ settle (invocationsAsync fns input) = invocations (completed <$> fns) input
  ∧ (Forall (fun fn => ∀ v, synchronous (fn v) = true) fns →
       settle (validateAsync fns input) = validate fns input
       ∧ settle (invocationsAsync fns input) = invocations fns input
       ∧ ∀ r, validate fns input = Ok r → turns (validateAsync fns input) = S (length fns)).
Proof.
  split; [apply validateAsync_awaits|]. split; [apply invocationsAsync_awaits|].
  intros Hsync. pose proof (completed_synchronous _ Hsync) as Hext. split_and!.
  - rewrite validateAsync_awaits. unfold validate.
    by rewrite !validationPipeline_assemble, (for_of_ext _ _ _ Hext).
  - rewrite invocationsAsync_awaits. unfold invocations.
    by rewrite (for_of_log_ext _ _ _ _ Hext).
  - intros r. unfold validate. rewrite validationPipeline_assemble.
    destruct (for_of fns _) as [st|f] eqn:Hrun; [|done]. intros _.
    unfold validateAsync, await, validationPipelineAsync.
    rewrite !turns_bind, !settle_bind, settle_for_await, (for_of_ext _ _ _ Hext), Hrun.
    rewrite (turns_for_await _ _ _ Hsync Hrun). simpl.
    by rewrite Nat.add_0_r, Nat.add_1_r.
Qed.

Lemma required_synchronous v : synchronous (required v) = true.
Proof. unfold required. by destruct (truthy v). Qed.

Lemma mapAdapter_synchronous mapFn v : synchronous (mapAdapter mapFn v) = true.
Proof. unfold mapAdapter. by destruct (mapFn v) as [[]|]. Qed.

Lemma validateAsync_agrees_witness :
  let fns := [required; append_one] in
  settle (validateAsync fns (VStr "")) = validate fns (VStr "")
  ∧ settle (invocationsAsync fns (VStr "")) = invocations fns (VStr "")
  ∧ ∀ r, validate fns (VStr "") = Ok r → turns (validateAsync fns (VStr "")) = 3.
Proof.
  intros fns. apply (proj2 (proj2 (validateAsync_agrees fns (VStr "")))).
  constructor; [intros v; apply required_synchronous|].
  constructor; [intros v; apply mapAdapter_synchronous|].
  constructor.
Defined.

(** ** [assert] *)

Lemma to_string_convertible v : convertible v = true → to_string v = Ok (text v).
Proof. unfold to_string. by intros ->. Qed.

Lemma to_string_TypeError v : convertible v = false → to_string v = Throw TypeError.
Proof. unfold to_string. by intros ->. Qed.

Lemma formatError_formattable e : formattable e = true → formatError e = Ok (error_line e).
Proof.
  unfold formattable, written, formatError, error_line, segments, join.
  destruct (field "path" e) as [| | | | |path|]; try done. cbn [andb].
  intros (((Hcode & Hpath)%andb_true_iff & Hmessage)%andb_true_iff & Hvalue)%andb_true_iff.
  by rewrite !to_string_convertible, Hpath.
Qed.

Lemma formatError_TypeError e : formattable e = false → formatError e = Throw TypeError.
Proof.
  unfold formattable, written, formatError, segments, join, to_string.
  destruct (convertible (field "code" e)); [|done]. cbn [mbind result_bind andb].
  destruct (field "path" e) as [| | | | |path|]; try done. cbn [andb].
  destruct (forallb convertible path); [|done]. cbn [mbind result_bind andb].
  destruct (convertible (field "message" e)); [|done]. cbn [mbind result_bind andb].
  by destruct (convertible (field "value" e)).
Qed.

Lemma mapM_formatError es :
  forallb formattable es = true → mapM formatError es = Ok (error_line <$> es).
Proof.
  induction es as [|e es IH]; [done|]. cbn [forallb mapM].
  intros [He Hes]%andb_true_iff. by rewrite formatError_formattable, IH.
Qed.

Lemma mapM_formatError_TypeError es :
  forallb formattable es = false → mapM formatError es = Throw TypeError.
Proof.
  induction es as [|e es IH]; [done|]. cbn [forallb mapM].
  destruct (formattable e) eqn:He.
  - rewrite formatError_formattable by done. cbn [andb mbind result_bind].
    by intros ->%IH.
  - intros _. by rewrite formatError_TypeError.
Qed.

Lemma createValidationError_formattable es :
  forallb formattable es = true →
  createValidationError es = Ok (ValidationError (failure_message es) es).
Proof. intros H. unfold createValidationError. by rewrite mapM_formatError. Qed.

Lemma createValidationError_TypeError es :
  forallb formattable es = false → createValidationError es = Throw TypeError.
Proof. intros H. unfold createValidationError. by rewrite mapM_formatError_TypeError. Qed.



(** Nor does it extend to an error one of whose parts has no string
    form: [is(String)] hands the rejected value on as [value], and an
    object with an own [toString] property cannot be put into the
    message. *)
Lemma assert_unconvertible_value :
  let input := VObj [("toString", VNum 1)] in
  validate [isType "string" is_string] input
  = Ok {| value := input; valid := false;
          errors := [[("code", VStr "is.type"); ("path", VArr []);
                      ("message", VStr "wrong type: expected string");
                      ("expectedType", VStr "string"); ("value", input)]] |}
  ∧ assert [isType "string" is_string] input = Throw TypeError.
Proof. by split. Qed.



(** ** Populated fields *)

Lemma lookup_error_record k code (o : record) :
  NoDup (o.*1) →
  lookup_prop k (error_record code (VObj o))
  = match lookup_prop k o with
    | Some v => Some v
    | None => lookup_prop k [("code", code); ("path", VArr [])]
    end.
Proof. intros Hnd. unfold error_record, spread_into. simpl. by apply lookup_fold_assign. Qed.

Lemma elem_of_reported e evs :
  e ∈ reported evs → ∃ code context, Error code context ∈ evs ∧ e = error_record code context.
Proof.
  unfold reported. intros (ev & Hev & He)%list_elem_of_omap.
  destruct ev as [v|code context]; [done|]. injection He as <-. eauto.
Qed.

Lemma elem_of_all_effects ev (functions : list Handler) index st log st' :
  for_of_log functions index st = Ok (log, st') →
  ev ∈ all_effects log → ∃ fn v, fn ∈ functions ∧ ev ∈ effects (fn v).
Proof.
  intros (_ & _ & Hchain)%for_of_log_spec.
  unfold all_effects. intros (inv & Hev & Hinv)%list_elem_of_bind.
  apply list_elem_of_lookup in Hinv as [i Hi].
  apply Hchain in Hi as (fn & Hfn & _ & Heff).
  exists fn, (inv_value inv). split; [by eapply list_elem_of_lookup_2|by rewrite <- Heff].
Qed.

(** C8 does not hold of the contract as worded: a handler may keep to
    it and still leave the message out, and the executor supplies
    none. *)
Lemma message_not_populated :
  Forall obeys_contract [bare_error]
  ∧ validate [bare_error] (VNum 0)
    = Ok {| value := VNum 0; valid := false;
            errors := [[("code", VStr "not.foo"); ("path", VArr [])]] |}
  ∧ ¬ Forall fully_populated [[("code", VStr "not.foo"); ("path", VArr [])]].
Proof.
  split_and!.
  - constructor; [|constructor]. intros v code context [= -> ->]%list_elem_of_singleton.
    exists "not.foo", []. split_and!; try done. constructor.
  - done.
  - intros [(_ & _ & v & Hv & _) _]%Forall_cons. discriminate Hv.
Qed.

(** C8, for contexts that carry a message.  When every [error] call of
    every handler passes a non-empty code and a context object that
    carries a message and does not set [code] or [path] to [undefined],
    every error [validate] returns has its code, path and message
    populated.  The executor supplies the code and defaults the path to
    the empty array; the message comes from the context alone. *)
Theorem errors_populated (fns : list Handler) (input : jsvalue) (r : PipelineResult) :
  Forall brings_message fns →
  validate fns input = Ok r →
  Forall fully_populated (errors r).
Proof.
  intros Hfns (log & st & Hlog & _ & ->)%validate_log.
  pose proof (for_of_log_spec _ _ _ _ _ Hlog) as (_ & -> & _). simpl.
  apply Forall_forall. intros e (code & context & Hev & ->)%elem_of_reported.
  destruct (elem_of_all_effects _ _ _ _ _ _ Hlog Hev) as (fn & v & Hfn & Hin).
  rewrite Forall_forall in Hfns.
  destruct (Hfns fn Hfn v code context Hin)
    as (c & o & -> & Hc & -> & Hnd & (m & Hm & Hmu) & Hcode & Hpath).
  unfold fully_populated, populated. rewrite !lookup_error_record by done.
  split_and!.
  - destruct (lookup_prop "code" o) as [x|]; [exists x; split; congruence|].
    by exists (VStr c).
  - destruct (lookup_prop "path" o) as [x|]; [exists x; split; congruence|].
    by exists (VArr []).
  - rewrite Hm. by exists m.
Qed.

Lemma required_brings_message : brings_message required.
Proof.
  intros v code context. unfold required. destruct (truthy v) eqn:Hv; simpl.
  - by intros ?%elem_of_nil.
  - intros [= -> ->]%list_elem_of_singleton.
    exists "required", [("message", VStr "value is required"); ("value", v)].
    split_and!; try done.
    + apply NoDup_cons. split; [by intros ?%list_elem_of_singleton|apply NoDup_singleton].
    + by exists (VStr "value is required").
Qed.

Lemma mapAdapter_brings_message mapFn : brings_message (mapAdapter mapFn).
Proof.
  intros v code context. unfold mapAdapter.
  destruct (mapFn v) as [[]|]; simpl; try (by intros ?%elem_of_nil);
    by intros [=]%list_elem_of_singleton.
Qed.

Lemma errors_populated_witness :
  let r := {| value := VStr "0"; valid := false;
              errors := [[("code", VStr "required"); ("path", VArr []);
                          ("message", VStr "value is required"); ("value", VNum 0)]] |} in
  Forall fully_populated (errors r).
Proof.
  intros r. apply (errors_populated [required; stringify] (VNum 0) r).
  - constructor; [apply required_brings_message|].
    constructor; [apply mapAdapter_brings_message|constructor].
  - reflexivity.
Defined.

(** ** The unrolling of the [items] loop *)

Lemma length_chars s : length (chars s) = String.length s.
Proof.
  unfold chars. rewrite length_map. induction s as [|a s IH]; simpl; [done|]. by rewrite IH.
Qed.

Lemma length_array_set i x (xs : list jsvalue) : i < length xs → length (array_set i x xs) = length xs.
Proof. intros Hi. unfold array_set. rewrite decide_True by done. apply length_insert. Qed.

(** An [itemUpdate] inside the loop leaves the length of [items] as it
    was. *)
Lemma itemUpdate_iterations index v items len e items' :
  get_prop items "length" = Ok len → js_lt index len = true →
  itemUpdate index v items = Ok (e, items') →
  iterations items' = iterations items ∧ index < iterations items.
Proof.
  unfold itemUpdate. destruct items as [| |b|n|s|xs|o]; try done; simpl.
  - intros [= <-]. rewrite js_lt_length. intros Hi%bool_decide_eq_true [= _ <-].
    rewrite iterations_array. unfold iterations. simpl.
    rewrite Nat2Z.id, length_array_set, length_chars by (by rewrite length_chars). done.
  - intros [= <-]. rewrite js_lt_length. intros Hi%bool_decide_eq_true [= _ <-].
    by rewrite !iterations_array, length_array_set.
Qed.

Lemma relay_item_ext fns index item items (k1 k2 : jsvalue → process) len :
  get_prop items "length" = Ok len → js_lt index len = true →
  (∀ items', iterations items' = iterations items → k1 items' = k2 items') →
  relay (itemUpdate index) (itemError index) (schema fns item) items k1
  = relay (itemUpdate index) (itemError index) (schema fns item) items k2.
Proof.
  intros Hlen Hlt Hk. change (schema fns item) with (handler fns item).
  rewrite handler_unfold. destruct (validate fns item) as [r|f]; [|done].
  rewrite emit_all_app.
  rewrite !(relay_forwarded _ _ (VNum (Z.of_nat index)) (itemError_prefixes _)).
  f_equal. cbn [emit_all foldr relay on].
  destruct (itemUpdate index (value r) items) as [[e items']|f] eqn:Hupd; [|done].
  f_equal. cbn [relay]. apply Hk.
  by destruct (itemUpdate_iterations _ _ _ _ _ _ Hlen Hlt Hupd).
Qed.

(** The loop always stops on its own condition: any number of unrollings
    beyond the iterations left gives the same process. *)
Lemma items_loop_fuel fns items index fuel1 fuel2 :
  iterations items - index < fuel1 → iterations items - index < fuel2 →
  items_loop fuel1 (schema fns) items index = items_loop fuel2 (schema fns) items index.
Proof.
  revert fuel2 items index.
  induction fuel1 as [|fuel1 IH]; intros fuel2 items index H1 H2; [lia|].
  destruct fuel2 as [|fuel2]; [lia|]. cbn [items_loop].
  destruct (get_prop items "length") as [len|f] eqn:Hlen; [|done].
  destruct (js_lt index len) eqn:Hlt; [|done].
  destruct (get_prop items (index_key index)) as [item|f]; [|done].
  apply (relay_item_ext _ _ _ _ _ _ len Hlen Hlt). intros items' Hsame.
  assert (index < iterations items) as Hi.
  { unfold iterations. rewrite Hlen. unfold js_lt in Hlt.
    destruct (to_number len) as [n|]; [|done]. simpl. apply Z.ltb_lt in Hlt. lia. }
  apply IH; rewrite Hsame; lia.
Qed.

Lemma items_fuel fns value fuel :
  iterations value < fuel → items_loop fuel (schema fns) value 0 = items fns value.
Proof. intros Hfuel. unfold items. apply items_loop_fuel; lia. Qed.

(** ** Combinators are synchronous handlers *)

Lemma handler_synchronous fns v : synchronous (handler fns v) = true.
Proof.
  rewrite handler_unfold. destruct (validate fns v); [|done].
  by rewrite synchronous_emit_all.
Qed.

Lemma relay_synchronous {S} (onUpdate : jsvalue → S → result (event * S))
    (onError : jsvalue → jsvalue → S → result (event * S)) p s k :
  (∀ s', synchronous (k s') = true) → synchronous (relay onUpdate onError p s k) = true.
Proof.
  intros Hk. revert s. induction p as [|f|e p IH|p IH]; intros s; simpl; try done.
  destruct (on _ _ e s) as [[e' s']|f]; [|done]. apply IH.
Qed.

(** Whatever the nested handlers are, [key] and [items] finish before
    they return: a nested handler that suspends is not awaited in either
    mode. *)
Lemma key_synchronous name fns v : synchronous (key name fns v) = true.
Proof.
  unfold key. destruct (get_prop v name); [|done]. by apply relay_synchronous.
Qed.

Lemma items_loop_synchronous fuel itemSchema items index :
  synchronous (items_loop fuel itemSchema items index) = true.
Proof.
  revert items index. induction fuel as [|fuel IH]; intros items index; [done|].
  cbn [items_loop]. destruct (get_prop items "length"); [|done].
  destruct (js_lt index _); [|done].
  destruct (get_prop items (index_key index)); [|done].
  apply relay_synchronous. intros s'. apply IH.
Qed.

Lemma items_synchronous fns v : synchronous (items fns v) = true.
Proof. apply items_loop_synchronous. Qed.

(** ** Further facts about [assert] and [error] *)

Lemma assert_passes_faults fns input f :
  validate fns input = Throw f → assert fns input = Throw f.
Proof. intros Hf. unfold assert. by rewrite Hf. Qed.

(** A [code] in the context replaces the code passed to [error]. *)
Lemma code_overridden :
  Forall obeys_contract [code_undefined]
  ∧ validate [code_undefined] (VNum 0)
    = Ok {| value := VNum 0; valid := false;
            errors := [[("code", VUndefined); ("path", VArr []); ("message", VStr "m")]] |}.
Proof.
  split; [|done]. constructor; [|constructor].
  intros v code context [= -> ->]%list_elem_of_singleton.
  exists "not.foo", [("message", VStr "m"); ("code", VUndefined)]. split_and!; try done.
  apply NoDup_cons. split; [by intros ?%list_elem_of_singleton|apply NoDup_singleton].
Qed.

(** ** The scenarios of the README *)

Example transforms_modify_the_value :
  validate [stringify; append_one] (VNum 42)
  = Ok {| value := VStr "421"; valid := true; errors := [] |}.
Proof. reflexivity. Qed.

Example validate_collects_errors :
  validate [isType "object" is_object] (VNum 42)
  = Ok {| value := VNum 42; valid := false;
          errors := [[("code", VStr "is.type"); ("path", VArr []);
                      ("message", VStr "wrong type: expected object");
                      ("expectedType", VStr "object"); ("value", VNum 42)]] |}.
Proof. reflexivity. Qed.

Example key_collects_errors :
  validate [key "foo" [isType "object" is_object]] (VObj [("foo", VNum 42)])
  = Ok {| value := VObj [("foo", VNum 42)]; valid := false;
          errors := [[("code", VStr "is.type"); ("path", VArr [VStr "foo"]);
                      ("message", VStr "wrong type: expected object");
                      ("expectedType", VStr "object"); ("value", VNum 42)]] |}.
Proof. reflexivity. Qed.

Example key_is_recursive :
  validate [key "name" [isType "object" is_object; key "first" [isType "string" is_string]]]
           (VObj [("name", VObj [("first", VNum 42)])])
  = Ok {| value := VObj [("name", VObj [("first", VNum 42)])]; valid := false;
          errors := [[("code", VStr "is.type"); ("path", VArr [VStr "name"; VStr "first"]);
                      ("message", VStr "wrong type: expected string");
                      ("expectedType", VStr "string"); ("value", VNum 42)]] |}.
Proof. reflexivity. Qed.

Example items_collects_errors :
  validate [items [isType "number" is_number]]
           (VArr [VNum 1; VNum 2; VStr "3"; VNum 4; VStr "5"])
  = Ok {| value := VArr [VNum 1; VNum 2; VStr "3"; VNum 4; VStr "5"]; valid := false;
          errors := [[("code", VStr "is.type"); ("path", VArr [VNum 2]);
                      ("message", VStr "wrong type: expected number");
                      ("expectedType", VStr "number"); ("value", VStr "3")];
                     [("code", VStr "is.type"); ("path", VArr [VNum 4]);
                      ("message", VStr "wrong type: expected number");
                      ("expectedType", VStr "number"); ("value", VStr "5")]] |}.
Proof. reflexivity. Qed.

Example items_transform_values :
  validate [items [double; double]] (VArr [VNum 1; VNum 2; VNum 3])
  = Ok {| value := VArr [VNum 4; VNum 8; VNum 12]; valid := true; errors := [] |}.
Proof. reflexivity. Qed.

Example test_returns_valid :
  test [isType "object" is_object] (VNum 42) = Ok false
  ∧ test [isType "object" is_object] (VObj []) = Ok true
  ∧ test [isType "object" is_object] (VStr "hi") = Ok false.
Proof. by split_and!. Qed.

Example key_on_undefined_throws :
  validate [key "foo" [required]] VUndefined = Throw TypeError.
Proof. reflexivity. Qed.

(** * Further properties of the code *)

(** ** Pipelines compose *)

Lemma call_frame p v es es0 :
  call p {| st_value := v; st_errors := es ++ es0 |}
  = with_errors es <$> call p {| st_value := v; st_errors := es0 |}.
Proof.
  revert v es0. induction p as [|f|e k IH|k IH]; intros v es0; simpl; try done.
  destruct e as [v'|c ctx]; simpl.
  - apply IH.
  - unfold error. simpl. rewrite <- app_assoc. apply IH.
Qed.

(** What is already in [errors] plays no part in a run: the loop only
    ever appends to it. *)
Lemma for_of_frame functions v es es0 :
  for_of functions {| st_value := v; st_errors := es ++ es0 |}
  = with_errors es <$> for_of functions {| st_value := v; st_errors := es0 |}.
Proof.
  revert v es0. induction functions as [|fn rest IH]; intros v es0; simpl; [done|].
  rewrite call_frame. unfold_result.
  destruct (call _ _) as [[v' es']|f]; [|done]. simpl. apply IH.
Qed.

Lemma for_of_app functions1 functions2 st :
  for_of (functions1 ++ functions2) st = st' ← for_of functions1 st; for_of functions2 st'.
Proof.
  revert st. induction functions1 as [|fn rest IH]; intros st; simpl; [done|].
  unfold_result. destruct (call _ st) as [st'|f]; [|done]. apply IH.
Qed.

Lemma valid_app (es1 es2 : list record) :
  negb (truthy (VNum (Z.of_nat (length (es1 ++ es2)))))
  = negb (truthy (VNum (Z.of_nat (length es1)))) && negb (truthy (VNum (Z.of_nat (length es2)))).
Proof. by destruct es1, es2. Qed.

Lemma validationPipeline_app functions1 functions2 input :
  validationPipeline (functions1 ++ functions2) input
  = r1 ← validationPipeline functions1 input;
    r2 ← validationPipeline functions2 (value r1);
    Ok {| value := value r2; valid := valid r1 && valid r2;
          errors := errors r1 ++ errors r2 |}.
Proof.
  rewrite !validationPipeline_assemble, for_of_app. unfold_result.
  destruct (for_of functions1 _) as [[v1 es1]|f]; [|done]. simpl.
  rewrite validationPipeline_assemble.
  rewrite <- (app_nil_r es1) at 1. rewrite for_of_frame. unfold_result.
  destruct (for_of functions2 _) as [[v2 es2]|f]; [|done].
  unfold assemble, with_errors. cbn [st_value st_errors value valid errors].
  by rewrite valid_app.
Qed.

(** X1.  A pipeline over [fns1 ++ fns2] is the pipeline over [fns1]
    followed by the pipeline over [fns2] on the value the first one
    returns: the value is that of the second, the errors are those of
    the first followed by those of the second, the result is valid when
    both are, and a fault of either is the fault of the whole.  In
    particular [test] of the whole is the conjunction of the two
    tests, the second taken on the transformed value. *)
Theorem validate_app (fns1 fns2 : list Handler) (input : jsvalue) :
  validate (fns1 ++ fns2) input
  = (r1 ← validate fns1 input;
     r2 ← validate fns2 (value r1);
     Ok {| value := value r2; valid := valid r1 && valid r2;
           errors := errors r1 ++ errors r2 |})
  ∧ test (fns1 ++ fns2) input
    = (r1 ← validate fns1 input;
       accepted ← test fns2 (value r1);
       Ok (valid r1 && accepted)).
Proof.
  unfold test, validate. rewrite validationPipeline_app. split; [done|].
  unfold_result. destruct (validationPipeline fns1 input) as [r1|f]; [|done].
  by destruct (validationPipeline fns2 (value r1)).
Qed.

(** A schema called as a handler does to the caller's variables what its
    handlers would do when called in its place. *)
Lemma call_handler fns st : call (handler fns (st_value st)) st = for_of fns st.
Proof.
  destruct st as [v es]. cbn [st_value]. rewrite handler_unfold.
  pose proof (validate_errors_shaped fns v) as Hshaped.
  unfold validate in *. rewrite validationPipeline_assemble in *.
  rewrite <- (app_nil_r es) at 2. rewrite for_of_frame.
  destruct (for_of fns _) as [[v' es']|f]; [|done].
  specialize (Hshaped _ eq_refl).
  cbn [fmap result_fmap assemble value errors st_value st_errors] in Hshaped |- *.
  rewrite call_emit_all_Done, reported_app, last_update_app, last_update_forwarded.
  rewrite reported_forwarded by done. unfold with_errors. simpl. by rewrite app_nil_r.
Qed.

(** X2.  A schema may be inlined wherever it stands in a handler list:
    the pipeline with [schema(...fns)] as one of its steps returns what
    the pipeline with the handlers [fns] themselves in that place
    returns, or throws what it throws. *)
Theorem schema_inlined (before fns after : list Handler) (input : jsvalue) :
  validate (before ++ schema fns :: after) input = validate (before ++ fns ++ after) input.
Proof.
  unfold validate. rewrite !validationPipeline_assemble, !for_of_app. f_equal.
  unfold_result. destruct (for_of before _) as [st|f]; [|done].
  simpl. unfold schema. by rewrite call_handler, for_of_app.
Qed.

(** ** The derived operations *)

(** X3.  What [assert] does, case by case: a fault of a handler passes
    through; a valid input is returned with its value; an invalid one
    throws a [ValidationError] carrying all the errors when every one
    of them can be formatted -- its path is an array, and its code, path
    segments, message and value have a string form --, and a
    [TypeError] otherwise.  The message is the count line followed by
    the error lines when the numbers that show in it are safe
    integers.  So [assert] returns exactly on the inputs for which
    [test] returns true. *)
Theorem assert_outcome (fns : list Handler) (input : jsvalue) :
  match validate fns input with
  | Throw f => assert fns input = Throw f
  | Ok r =>
      if valid r
      then assert fns input = Ok {| accepted_valid := true; accepted_value := value r |}
      else if forallb formattable (errors r)
           then ∃ message,
                  assert fns input = Throw (ValidationError message (errors r))
                  ∧ (Forall printable (errors r) → message = failure_message (errors r))
           else assert fns input = Throw TypeError
  end
  ∧ ((∃ a, assert fns input = Ok a) ↔ test fns input = Ok true).
Proof.
  unfold assert, test. destruct (validate fns input) as [r|f]; unfold_result.
  2:{ split; [done|]. split; [by intros [a [=]]|done]. }
  destruct (valid r) eqn:Hvalid; simpl.
  - split; [done|]. split; [done|]. by eexists.
  - destruct (forallb formattable (errors r)) eqn:Hformat.
    + rewrite createValidationError_formattable by done.
      split; [by eexists|]. split; [by intros [a [=]]|done].
    + rewrite createValidationError_TypeError by done.
      split; [done|]. split; [by intros [a [=]]|done].
Qed.

Lemma validate_completed fns input :
  Forall (fun fn => ∀ v, synchronous (fn v) = true) fns →
  validate (completed <$> fns) input = validate fns input.
Proof.
  intros Hsync. unfold validate. rewrite !validationPipeline_assemble.
  by rewrite (for_of_ext _ _ _ (completed_synchronous _ Hsync)).
Qed.

Lemma settle_await {A} (m : promise A) : settle (await m) = settle m.
Proof. unfold await. rewrite settle_bind. unfold_result. by destruct (settle m). Qed.

(** X4.  [testAsync] and [assertAsync] settle to what [test] and [assert]
    compute from the handlers run to completion: the same boolean, the
    same accepted value, the same [ValidationError] or fault.  For
    handlers that finish before they return that is what [test] and
    [assert] themselves give. *)
Theorem derived_async (fns : list Handler) (input : jsvalue) :
  settle (testAsync fns input) = test (completed <$> fns) input
  ∧ settle (assertAsync fns input) = assert (completed <$> fns) input
  ∧ (Forall (fun fn => ∀ v, synchronous (fn v) = true) fns →
       settle (testAsync fns input) = test fns input
       ∧ settle (assertAsync fns input) = assert fns input).
Proof.
  assert (settle (testAsync fns input) = test (completed <$> fns) input) as Htest.
  { unfold testAsync, test. rewrite settle_bind, settle_await, validateAsync_awaits.
    unfold_result. by destruct (validate _ _). }
  assert (settle (assertAsync fns input) = assert (completed <$> fns) input) as Hassert.
  { unfold assertAsync, assert. rewrite settle_bind, settle_await, validateAsync_awaits.
    unfold_result. destruct (validate _ _) as [r|f]; [|done].
    destruct (valid r); simpl; [done|].
    by destruct (createValidationError (errors r)). }
  split_and!; [done|done|]. intros Hsync.
  rewrite Htest, Hassert. unfold test, assert. by rewrite validate_completed.
Qed.

Lemma derived_async_witness :
  let fns := [required; append_one] in
  settle (testAsync fns (VStr "")) = test fns (VStr "")
  ∧ settle (assertAsync fns (VStr "")) = assert fns (VStr "").
Proof.
  intros fns. apply (proj2 (proj2 (derived_async fns (VStr "")))).
  constructor; [intros v; apply required_synchronous|].
  constructor; [intros v; apply mapAdapter_synchronous|].
  constructor.
Defined.

(** ** [key] on objects *)

Lemma spread_object (o : record) : NoDup (o.*1) → spread_into [] (VObj o) = o.
Proof.
  intros Hnd. unfold spread_into. simpl. rewrite spread_fresh; [done|done|].
  by intros k _ ?%elem_of_nil.
Qed.

Lemma assign_NoDup k v (o : record) : NoDup (o.*1) → NoDup ((assign_prop k v o).*1).
Proof.
  intros Hnd. destruct (decide (k ∈ o.*1)).
  - by rewrite assign_keys.
  - rewrite assign_fresh, fmap_app by done.
    apply NoDup_app. split_and!; [done| |apply NoDup_singleton].
    by intros x Hx ->%list_elem_of_singleton.
Qed.

(** Whatever is spread into a fresh object literal, its keys are
    distinct. *)
Lemma spread_NoDup (v : jsvalue) : NoDup ((spread_into [] v).*1).
Proof.
  unfold spread_into.
  assert (NoDup ((@nil (string * jsvalue)).*1)) as Hbase by constructor.
  revert Hbase. generalize (@nil (string * jsvalue)).
  induction (own_props v) as [|[k x] o IH]; intros base Hbase; simpl; [done|].
  by apply IH, assign_NoDup.
Qed.

Lemma assign_assign k v v' (o : record) :
  assign_prop k v' (assign_prop k v o) = assign_prop k v' o.
Proof.
  induction o as [|[k0 v0] o IH]; simpl.
  - by rewrite String.eqb_refl.
  - destruct (String.eqb_spec k0 k) as [->|Hne]; simpl.
    + by rewrite String.eqb_refl.
    + destruct (String.eqb_spec k0 k); [done|]. by rewrite IH.
Qed.

Lemma assign_keys_cases k v (o : record) :
  (assign_prop k v o).*1 = if decide (k ∈ o.*1) then o.*1 else o.*1 ++ [k].
Proof.
  case_decide.
  - by apply assign_keys.
  - by rewrite assign_fresh, fmap_app.
Qed.

(** X5.  On an object, and for a name that is not one of the members
    inherited from [Object.prototype], a [key(name, ...)] step that
    returns has run the nested schema on the property, on [undefined]
    when it was missing, and leaves an object in which [name] holds the
    nested value, every other property is as it was, and the
    properties are those of the input and [name]. *)
Theorem key_sets_one_property (name : string) (fns : list Handler) (o : record)
    (r : PipelineResult) :
  name ∉ Object_prototype →
  NoDup (o.*1) →
  validate [key name fns] (VObj o) = Ok r →
  ∃ r' p,
    validate fns (field name o) = Ok r'
    ∧ value r = VObj p
    ∧ lookup_prop name p = Some (value r')
    ∧ (∀ k, k ≠ name → lookup_prop k p = lookup_prop k o)
    ∧ (∀ k, k ∈ p.*1 ↔ k ∈ o.*1 ∨ k = name).
Proof.
  intros _ Hnd (sub & r' & Hsub & Hr' & _ & Hvalue)%key_validate.
  rewrite spread_object in Hvalue by done.
  cbn [get_prop] in Hsub. injection Hsub as <-. fold (field name o) in Hr'.
  exists r', (assign_prop name (value r') o). split_and!; try done.
  - apply lookup_assign_eq.
  - intros k Hk. by apply lookup_assign_ne.
  - intros k. rewrite assign_keys_cases. case_decide as Hin.
    + split; [by left|]. by intros [?| ->].
    + rewrite elem_of_app, list_elem_of_singleton. done.
Qed.

Lemma key_sets_one_property_witness :
  let o := [("first", VStr "Ada"); ("last", VNum 7)] in
  ∃ r' p,
    validate [required; stringify] (field "middle" o) = Ok r'
    ∧ VObj [("first", VStr "Ada"); ("last", VNum 7); ("middle", VStr "undefined")] = VObj p
    ∧ lookup_prop "middle" p = Some (value r')
    ∧ (∀ k, k ≠ "middle" → lookup_prop k p = lookup_prop k o)
    ∧ (∀ k, k ∈ p.*1 ↔ k ∈ o.*1 ∨ k = "middle").
Proof.
  intros o.
  apply (key_sets_one_property "middle" [required; stringify] o
           {| value := VObj [("first", VStr "Ada"); ("last", VNum 7);
                             ("middle", VStr "undefined")];
              valid := false;
              errors := [[("code", VStr "required"); ("path", VArr [VStr "middle"]);
                          ("message", VStr "value is required");
                          ("value", VUndefined)]] |}).
  - rewrite <- inherited_spec. by intros [=].
  - apply NoDup_cons. split; [by intros ?%list_elem_of_singleton|apply NoDup_singleton].
  - reflexivity.
Defined.

Lemma call_key name fns st :
  call (key name fns (st_value st)) st
  = sub ← get_prop (st_value st) name;
    r ← validate fns sub;
    Ok {| st_value := VObj (assign_prop name (value r) (spread_into [] (st_value st)));
          st_errors := st_errors st ++ reported (relayed (VStr name) <$> errors r) |}.
Proof.
  rewrite key_unfold. unfold_result.
  destruct (get_prop (st_value st) name) as [sub|f]; [|done].
  destruct (validate fns sub) as [r|f]; [|done].
  rewrite call_emit_all_Done, reported_app, last_update_app, last_update_relayed.
  simpl. by rewrite app_nil_r.
Qed.

(** X6.  Two [key] steps on the same name, one after the other, are one
    [key] step over the two handler lists joined: same value, same
    validity, same errors in the same order, same fault. *)
Theorem key_fused (name : string) (fns1 fns2 : list Handler) (input : jsvalue) :
  validate [key name fns1; key name fns2] input = validate [key name (fns1 ++ fns2)] input.
Proof.
  unfold validate. rewrite !validationPipeline_assemble. f_equal.
  cbn [for_of]. rewrite !call_key. cbn [st_value st_errors].
  destruct (get_prop input name) as [sub|f]; cbn [mbind result_bind]; [|done].
  unfold validate. rewrite validationPipeline_app.
  destruct (validationPipeline fns1 sub) as [r1|f]; cbn [mbind result_bind]; [|done].
  rewrite call_key. cbn [st_value st_errors get_prop]. unfold validate.
  rewrite lookup_assign_eq. cbn [mbind result_bind default from_option id].
  destruct (validationPipeline fns2 (value r1)) as [r2|f]; cbn [mbind result_bind]; [|done].
  cbn [value errors app]. rewrite fmap_app, reported_app.
  rewrite spread_object by apply assign_NoDup, spread_NoDup.
  by rewrite assign_assign.
Qed.

(** ** [items] as a map over the array *)

Lemma mapM_Ok_Forall2 {A B} (f : A → result B) xs rs :
  mapM f xs = Ok rs ↔ Forall2 (fun x r => f x = Ok r) xs rs.
Proof.
  revert rs. induction xs as [|x xs IH]; intros rs; cbn [mapM].
  - split; [by intros [= <-]|by intros ->%Forall2_nil_inv_l].
  - unfold_result. destruct (f x) as [r|flt] eqn:Hx.
    + destruct (mapM f xs) as [rs'|flt].
      * split.
        -- intros [= <-]. constructor; [done|]. by apply IH.
        -- intros (r0 & rs0 & Hr0 & Hrs0 & ->)%Forall2_cons_inv_l.
           apply IH in Hrs0 as [= <-]. congruence.
      * split; [done|].
        intros (r0 & rs0 & Hr0 & Hrs0 & ->)%Forall2_cons_inv_l. by apply IH in Hrs0.
    + split; [done|]. intros (r0 & rs0 & Hr0 & _)%Forall2_cons_inv_l. congruence.
Qed.

(** [mapM] stops at the first element that throws. *)
Lemma mapM_Throw {A B} (f : A → result B) xs flt :
  mapM f xs = Throw flt →
  ∃ xs1 rs1 x xs2, xs = xs1 ++ x :: xs2
                   ∧ Forall2 (fun x r => f x = Ok r) xs1 rs1 ∧ f x = Throw flt.
Proof.
  induction xs as [|x xs IH]; cbn [mapM]; [done|].
  unfold_result. destruct (f x) as [r|flt'] eqn:Hx.
  - destruct (mapM f xs) as [rs'|flt'] eqn:Hxs; [done|]. intros [= ->].
    destruct (IH eq_refl) as (xs1 & rs1 & x' & xs2 & -> & H1 & Hx').
    exists (x :: xs1), (r :: rs1), x', xs2. split_and!; [done| |done]. by constructor.
  - intros [= ->]. exists [], [], x, xs. by split_and!.
Qed.

(** The loop throws what the nested schema throws on the first element
    it does not get past. *)
Lemma items_loop_throws fns (seen : list PipelineResult) (xs1 : list jsvalue)
    (rs1 : list PipelineResult) x (xs2 : list jsvalue) flt fuel :
  Forall2 (fun x r => validate fns x = Ok r) xs1 rs1 →
  validate fns x = Throw flt →
  length xs1 < fuel →
  thrown (items_loop fuel (schema fns) (VArr ((value <$> seen) ++ xs1 ++ x :: xs2))
            (length seen))
  = Some flt.
Proof.
  intros Hrs Hx. revert seen fuel.
  induction Hrs as [|x1 r1 xs1 rs1 Hr1 _ IH]; intros seen fuel Hfuel.
  - destruct fuel as [|fuel]; [simpl in Hfuel; lia|].
    cbn [items_loop app]. rewrite get_prop_length, js_lt_length, bool_decide_true.
    2:{ rewrite length_app, length_fmap. simpl. lia. }
    rewrite (get_prop_index _ _ x).
    2:{ rewrite <- (length_fmap value seen). apply list_lookup_middle. done. }
    change (schema fns x) with (handler fns x). by rewrite handler_unfold, Hx.
  - destruct fuel as [|fuel]; [simpl in Hfuel; lia|].
    cbn [items_loop app]. rewrite get_prop_length, js_lt_length, bool_decide_true.
    2:{ rewrite length_app, length_fmap. simpl. lia. }
    rewrite (get_prop_index _ _ x1).
    2:{ rewrite <- (length_fmap value seen). apply list_lookup_middle. done. }
    change (schema fns x1) with (handler fns x1).
    rewrite handler_unfold, Hr1, emit_all_app.
    rewrite (relay_forwarded _ _ (VNum (Z.of_nat (length seen))) (itemError_prefixes _)).
    rewrite thrown_emit_all.
    cbn [emit_all foldr relay on itemUpdate iterate mbind result_bind thrown].
    assert (array_set (length seen) (value r1) ((value <$> seen) ++ x1 :: xs1 ++ x :: xs2)
            = (value <$> seen) ++ value r1 :: xs1 ++ x :: xs2) as ->.
    { rewrite <- (length_fmap value seen). apply array_set_middle. }
    specialize (IH (seen ++ [r1]) fuel). rewrite length_app in IH. simpl in IH.
    replace (length seen + 1) with (S (length seen)) in IH by lia.
    rewrite fmap_app, <- app_assoc in IH. apply IH. simpl in Hfuel. lia.
Qed.

Lemma length_reported_relayed segment es :
  length (reported (relayed segment <$> es)) = length es.
Proof. induction es as [|e es IH]; [done|]. simpl. by rewrite <- IH. Qed.

Lemma valid_items (g : nat → PipelineResult → list record) (rs : list PipelineResult) :
  (∀ i r, length (g i r) = length (errors r)) →
  Forall (fun r => valid r = true ↔ errors r = []) rs →
  negb (truthy (VNum (Z.of_nat (length (mjoin (imap g rs)))))) = forallb valid rs.
Proof.
  intros Hg Hrs. revert g Hg. induction Hrs as [|r rs Hr _ IH]; intros g Hg; [done|].
  rewrite imap_cons. cbn [mjoin list_join forallb]. rewrite valid_app.
  f_equal; [|apply IH; intros i r'; apply Hg].
  specialize (Hg 0 r). destruct (valid r).
  - destruct Hr as [Hr _]. rewrite Hr in Hg by done. by destruct (g 0 r).
  - destruct (g 0 r); [|done]. destruct (errors r); [|done].
    destruct Hr as [_ Hr]. by specialize (Hr eq_refl).
Qed.

Lemma validate_valid fns input r :
  validate fns input = Ok r → valid r = true ↔ errors r = [].
Proof. intros (log & st & _ & _ & ->)%validate_log. apply valid_assemble. Qed.

Lemma validate_items_array (fns : list Handler) (xs : list jsvalue) :
  validate [items fns] (VArr xs)
  = rs ← mapM (validate fns) xs;
    Ok {| value := VArr (value <$> rs);
          valid := forallb valid rs;
          errors := mjoin (imap (fun i r =>
                             reported (relayed (VNum (Z.of_nat i)) <$> errors r)) rs) |}.
Proof.
  rewrite validate_singleton. unfold items. cbv zeta. rewrite iterations_array.
  destruct (mapM (validate fns) xs) as [rs|flt] eqn:Hxs; cbn [mbind result_bind].
  - apply mapM_Ok_Forall2 in Hxs.
    pose proof (items_loop_from fns [] xs rs (S (length xs)) Hxs ltac:(lia)) as Hloop.
    cbn [fmap list_fmap app length] in Hloop. rewrite Hloop. clear Hloop.
    rewrite call_emit_all_Done. cbn [fmap result_fmap assemble st_value st_errors app].
    cbn [length list_fmap Nat.add].
    rewrite last_update_items by (by eapply Forall2_length).
    rewrite (reported_mjoin_imap _ _ _ (fun i r => reported_item_step i r _)).
    unfold assemble. cbn [st_value st_errors].
    rewrite valid_items; [done|intros i r; apply length_reported_relayed|].
    apply Forall_forall. intros r Hr.
    apply list_elem_of_lookup in Hr as [i Hi].
    destruct (Forall2_lookup_r _ _ _ _ _ Hxs Hi) as (x & _ & Hx).
    by eapply validate_valid.
  - destruct (mapM_Throw _ _ _ Hxs) as (xs1 & rs1 & x & xs2 & -> & H1 & Hx).
    assert (length xs1 < S (length (xs1 ++ x :: xs2))) as Hfuel
      by (rewrite length_app; lia).
    pose proof (items_loop_throws fns [] xs1 rs1 x xs2 flt _ H1 Hx Hfuel) as Hthrown.
    cbn [fmap list_fmap app length] in Hthrown.
    apply (call_Throw _ {| st_value := VArr (xs1 ++ x :: xs2); st_errors := [] |}) in Hthrown.
    by rewrite Hthrown.
Qed.

(** X7.  On an array [items] is a map: it runs the nested schema on each
    element in turn and returns the array of the nested values, the same
    length as the input, with the nested errors gathered element by
    element, each with its index in front of its path; it is valid when
    every element is, and it throws what the nested schema throws on the
    first element that makes it throw. *)
Theorem items_maps (fns : list Handler) (xs : list jsvalue) :
  validate [items fns] (VArr xs)
  = rs ← mapM (validate fns) xs;
    Ok {| value := VArr (value <$> rs);
          valid := forallb valid rs;
          errors := mjoin (imap (fun i r =>
                             reported (relayed (VNum (Z.of_nat i)) <$> errors r)) rs) |}.
Proof. apply validate_items_array. Qed.

(** ** Paths under [key] and [items] *)

Lemma passed_on_relayed segment es :
  Forall error_shaped es → Forall passed_on (relayed segment <$> es).
Proof.
  induction 1 as [|e es He _ IH]; constructor; [|done]. right. by exists segment, e.
Qed.

Lemma key_passes_on name fns v : Forall passed_on (effects (key name fns v)).
Proof.
  rewrite key_unfold. destruct (get_prop v name) as [sub|f]; [|done].
  destruct (validate fns sub) as [r|f] eqn:Hr; [|done].
  rewrite effects_emit_all, app_nil_r. apply Forall_app. split.
  - apply passed_on_relayed. by eapply validate_errors_shaped.
  - constructor; [by left|done].
Qed.

Lemma items_loop_passes_on fns fuel items index :
  Forall passed_on (effects (items_loop fuel (schema fns) items index)).
Proof.
  revert items index. induction fuel as [|fuel IH]; intros items index; [done|].
  cbn [items_loop]. destruct (get_prop items "length") as [len|f]; [|done].
  destruct (js_lt index len); [|done].
  destruct (get_prop items (index_key index)) as [item|f]; [|done].
  change (schema fns item) with (handler fns item). rewrite handler_unfold.
  destruct (validate fns item) as [r|f] eqn:Hr; [|done].
  rewrite emit_all_app.
  rewrite (relay_forwarded _ _ (VNum (Z.of_nat index)) (itemError_prefixes _)).
  rewrite effects_emit_all. apply Forall_app. split.
  - apply passed_on_relayed. by eapply validate_errors_shaped.
  - cbn [emit_all foldr relay on].
    destruct (itemUpdate index (value r) items) as [[e items']|f] eqn:Hupd; [|done].
    unfold itemUpdate in Hupd. destruct (iterate items) as [copy|f]; [|done].
    injection Hupd as <- <-. cbn [effects relay]. constructor; [by left|apply IH].
Qed.

Lemma structural_passes_on fn v : structural fn → Forall passed_on (effects (fn v)).
Proof.
  intros [name fns|fns]; [apply key_passes_on|apply items_loop_passes_on].
Qed.

Lemma reported_passed_on evs : Forall passed_on evs → Forall has_array_path (reported evs).
Proof.
  induction 1 as [|ev evs Hev _ IH]; [constructor|].
  destruct Hev as [Hupd|(segment & e & (c & p & rest & -> & Hnd & Hc & Hp) & ->)].
  - by destruct ev.
  - change (reported (relayed segment (("code", c) :: ("path", p) :: rest) :: evs))
      with (reported [relayed segment (("code", c) :: ("path", p) :: rest)] ++ reported evs).
    rewrite relayed_record by done. constructor; [|done]. by eexists.
Qed.

Lemma formattable_written es :
  Forall has_array_path es → forallb formattable es = forallb written es.
Proof.
  induction 1 as [|e es [path He] _ IH]; [done|]. cbn [forallb].
  rewrite IH. unfold formattable. by rewrite He.
Qed.

Lemma forallb_false_Exists {A} (p : A → bool) (xs : list A) :
  forallb p xs = false ↔ Exists (fun x => p x = false) xs.
Proof.
  induction xs as [|x xs IH]; cbn [forallb].
  - split; [done|]. by intros ?%Exists_nil.
  - rewrite Exists_cons, <- IH. apply andb_false_iff.
Qed.

(** X8.  Every error that comes out of a pipeline of [key] and [items]
    steps has an array as its path, whatever paths the nested handlers
    reported: the segment is put in front of an array path and takes a
    path of any other kind as its second element.  On such a pipeline
    the shape of a path never makes [assert] fail while formatting: it
    throws a [TypeError] exactly when some error has a code, a path
    segment, a message or a value without a string form. *)
Theorem structural_paths_are_arrays (fns : list Handler) (input : jsvalue)
    (r : PipelineResult) :
  Forall structural fns →
  validate fns input = Ok r →
  Forall has_array_path (errors r)
  ∧ (assert fns input = Throw TypeError
     ↔ Exists (fun e => written e = false) (errors r)).
Proof.
  intros Hfns Hr.
  assert (Forall has_array_path (errors r)) as Hpaths.
  { pose proof Hr as (log & st & Hlog & _ & ->)%validate_log.
    pose proof (for_of_log_spec _ _ _ _ _ Hlog) as (_ & -> & _). simpl.
    apply reported_passed_on, Forall_forall. intros ev Hev.
    destruct (elem_of_all_effects _ _ _ _ _ _ Hlog Hev) as (fn & v & Hfn & Hin).
    rewrite Forall_forall in Hfns.
    pose proof (structural_passes_on fn v (Hfns fn Hfn)) as Hall.
    rewrite Forall_forall in Hall. by apply Hall. }
  split; [done|]. rewrite <- forallb_false_Exists, <- formattable_written by done.
  pose proof (validate_valid _ _ _ Hr) as Hvalid.
  unfold assert. rewrite Hr. unfold_result.
  destruct (valid r); simpl.
  - destruct Hvalid as [-> _]; done.
  - destruct (forallb formattable (errors r)) eqn:Hformat.
    + by rewrite createValidationError_formattable.
    + by rewrite createValidationError_TypeError.
Qed.

Lemma structural_paths_are_arrays_witness :
  let fns := [key "a" [isType "string" is_string]] in
  let input := VObj [("a", VObj [("toString", VNull)])] in
  let e := [("code", VStr "is.type"); ("path", VArr [VStr "a"]);
            ("message", VStr "wrong type: expected string");
            ("expectedType", VStr "string"); ("value", VObj [("toString", VNull)])] in
  Forall has_array_path [e]
  ∧ (assert fns input = Throw TypeError ↔ Exists (fun e => written e = false) [e]).
Proof.
  intros fns input e.
  apply (structural_paths_are_arrays fns input
           {| value := input; valid := false; errors := [e] |}).
  - constructor; [apply structural_key|constructor].
  - reflexivity.
Defined.

(** ** Leaf handlers in a pipeline *)

Lemma call_mapAdapter mapFn v es :
  call (mapAdapter mapFn v) {| st_value := v; st_errors := es |}
  = (fun y => {| st_value := if y is VUndefined then v else y; st_errors := es |})
    <$> mapFn v.
Proof. unfold mapAdapter. by destruct (mapFn v) as [[]|]. Qed.

Lemma for_of_mapAdapter mapFns v es :
  for_of (mapAdapter <$> mapFns) {| st_value := v; st_errors := es |}
  = (fun v' => {| st_value := v'; st_errors := es |}) <$> through mapFns v.
Proof.
  revert v. induction mapFns as [|mapFn rest IH]; intros v; [done|].
  cbn [fmap list_fmap for_of through st_value]. rewrite call_mapAdapter.
  destruct (mapFn v) as [y|f]; [|done]. apply IH.
Qed.

(** X9.  A pipeline of [mapAdapter] steps is the composition of the
    mapping functions: it never reports an error, it returns the value
    the chain leads to, a function returning [undefined] leaves the
    value as it was, and the first function that throws ends the run
    with its fault. *)
Theorem mapAdapter_chain (mapFns : list (jsvalue → result jsvalue)) (input : jsvalue) :
  validate (mapAdapter <$> mapFns) input
  = (fun v => {| value := v; valid := true; errors := [] |}) <$> through mapFns input.
Proof.
  unfold validate. rewrite validationPipeline_assemble, for_of_mapAdapter.
  unfold_result. by destruct (through mapFns input).
Qed.

Lemma call_isType expected test v es :
  call (isType expected test v) {| st_value := v; st_errors := es |}
  = Ok {| st_value := v;
          st_errors := es ++ (if test v then [] else [type_error expected v]) |}.
Proof. unfold isType. destruct (test v); simpl; [by rewrite app_nil_r|done]. Qed.

Lemma for_of_isType (checks : list (string * (jsvalue → bool))) v es :
  for_of ((fun c => isType c.1 c.2) <$> checks) {| st_value := v; st_errors := es |}
  = Ok {| st_value := v;
          st_errors := es ++ ((fun c => type_error c.1 v)
                                <$> List.filter (fun c => negb (c.2 v)) checks) |}.
Proof.
  revert es. induction checks as [|[expected test] checks IH]; intros es.
  - simpl. by rewrite app_nil_r.
  - cbn [fmap list_fmap for_of List.filter st_value fst snd]. rewrite call_isType.
    cbn [mbind result_bind]. rewrite IH.
    destruct (test v); cbn [negb]; by rewrite <- app_assoc.
Qed.

(** X10.  A pipeline of type checks runs every check on the input: the
    value comes back untouched, the result is valid exactly when every
    test accepts the input, and there is one [is.type] error, naming the
    expected type and the value received, for each test that does not,
    in the order of the checks. *)
Theorem isType_checks (checks : list (string * (jsvalue → bool))) (input : jsvalue) :
  validate ((fun c => isType c.1 c.2) <$> checks) input
  = Ok {| value := input;
          valid := forallb (fun c => c.2 input) checks;
          errors := (fun c => type_error c.1 input)
                      <$> List.filter (fun c => negb (c.2 input)) checks |}.
Proof.
  unfold validate. rewrite validationPipeline_assemble, for_of_isType.
  cbn [fmap result_fmap assemble st_value st_errors app]. do 2 f_equal.
  induction checks as [|[expected test] checks IH]; [done|].
  cbn [List.filter forallb fst snd]. by destruct (test input).
Qed.

Lemma fmap_Ok {A B} (g : A → B) (a : A) : g <$> Ok a = Ok (g a).
Proof. done. Qed.

Lemma foldr_emit {A} (ev : A → event) (xs : list A) :
  foldr (fun x k => Emit (ev x) k) Done xs = emit_all (ev <$> xs) Done.
Proof. induction xs as [|x xs IH]; [done|]. simpl. by rewrite IH. Qed.

Lemma has_prop_present v key :
  (if v is VObj _ then true else if v is VArr _ then true else false) = true →
  has_prop key v = Ok (present v key).
Proof.
  unfold present. destruct v as [| |b|n|s|xs|o]; try done; intros _; simpl.
  - by destruct (_ || _).
  - by destruct (_ || _).
Qed.

Lemma missingKeys_present keys v :
  (if v is VObj _ then true else if v is VArr _ then true else false) = true →
  missingKeys keys v = Ok (List.filter (fun key => negb (present v key)) keys).
Proof.
  intros Hv. induction keys as [|key keys IH]; [done|].
  cbn [missingKeys List.filter]. rewrite has_prop_present, IH by done.
  cbn [mbind result_bind]. by destruct (present v key).
Qed.

Lemma missingKeys_primitive key keys v :
  (if v is VObj _ then true else if v is VArr _ then true else false) = false →
  missingKeys (key :: keys) v = Throw TypeError.
Proof. by destruct v. Qed.

Lemma reported_missing v (keys : list string) :
  reported ((fun key =>
               Error (VStr "key.missing")
                     (VObj [("message",
                             VStr ("expected key " +:+ String "034" "" +:+ key
                                   +:+ String "034" "" +:+ " missing"));
                            ("key", VStr key); ("value", v)])) <$> keys)
  = missing_error v <$> keys.
Proof. induction keys as [|key keys IH]; [done|]. cbn [fmap list_fmap] in *. simpl. by rewrite <- IH. Qed.

Lemma last_update_errors evs v : (∀ e, e ∈ evs → is_error e = true) → last_update evs v = v.
Proof.
  induction evs as [|e evs IH]; [done|]. intros H. simpl.
  pose proof (H e ltac:(by left)) as He. destruct e; [done|].
  apply IH. intros e' He'. apply H. by right.
Qed.

Lemma valid_filter {A} (p : A → bool) (g : A → record) (xs : list A) :
  negb (truthy (VNum (Z.of_nat (length (g <$> List.filter (fun x => negb (p x)) xs)))))
  = forallb p xs.
Proof.
  induction xs as [|x xs IH]; [done|]. cbn [List.filter forallb].
  destruct (p x); [apply IH|done].
Qed.

(** X11.  [hasKeys] looks at an object and leaves it untouched: the
    result is valid exactly when every key is present -- as an own
    property, be its value [undefined], or as a member inherited from
    [Object.prototype] -- and there is one [key.missing] error for each
    missing key, in the order the keys were given.  On a value that is
    not an object the [in] operator throws a [TypeError], unless there
    is no key to look for.  Arrays are left aside. *)
Theorem hasKeys_reports_missing (keys : list string) (v : jsvalue) :
  (∀ xs, v ≠ VArr xs) →
  validate [hasKeys keys] v
  = match v with
    | VObj _ =>
        Ok {| value := v;
              valid := forallb (present v) keys;
              errors := missing_error v
                          <$> List.filter (fun key => negb (present v key)) keys |}
    | _ =>
        if keys is [] then Ok {| value := v; valid := true; errors := [] |}
        else Throw TypeError
    end
  ∧ ∀ o key, present (VObj o) key = true ↔ key ∈ o.*1 ∨ key ∈ Object_prototype.
Proof.
  intros Hv. split.
  - rewrite validate_singleton. unfold hasKeys.
    destruct (if v is VObj _ then true else if v is VArr _ then true else false) eqn:Hshape.
    + rewrite missingKeys_present, foldr_emit, call_emit_all_Done by done.
      rewrite reported_missing.
      rewrite last_update_errors.
      2:{ intros e (key & -> & _)%list_elem_of_fmap. done. }
      rewrite fmap_Ok. unfold assemble. cbn [st_value st_errors app].
      rewrite valid_filter. destruct v; try done. by destruct (Hv elems).
    + destruct keys as [|key keys]; [by destruct v|].
      rewrite missingKeys_primitive by done. by destruct v.
  - intros o key. unfold present. cbn [has_prop].
    rewrite <- lookup_prop_Some, <- inherited_spec.
    rewrite <- orb_true_iff. by destruct (_ || _).
Qed.

Lemma hasKeys_reports_missing_witness :
  let v := VObj [("first", VStr "Ada"); ("middle", VUndefined)] in
  validate [hasKeys ["first"; "last"; "middle"; "toString"]] v
  = Ok {| value := v; valid := false;
          errors := [[("code", VStr "key.missing"); ("path", VArr []);
                      ("message",
                       VStr ("expected key " +:+ String "034" "" +:+ "last"
                             +:+ String "034" "" +:+ " missing"));
                      ("key", VStr "last"); ("value", v)]] |}
  ∧ ∀ o key, present (VObj o) key = true ↔ key ∈ o.*1 ∨ key ∈ Object_prototype.
Proof.
  intros v. apply (hasKeys_reports_missing ["first"; "last"; "middle"; "toString"] v).
  intros xs. discriminate.
Defined.

Lemma sized_length v n : sized v = Some n → get_prop v "length" = Ok (VNum (Z.of_nat n)).
Proof. destruct v; try done; by intros [= <-]. Qed.

(** X12.  On an array or a string of length [n], [length(min, max)]
    leaves the value untouched and is valid exactly when
    [min <= n <= max], with no upper bound when [max] is [Infinity].
    Below [min] it reports [length.min], above [max] it reports
    [length.max], and when [max < n < min] it reports both.  Since no
    length is below zero, the default [min] of [0] never rejects
    anything and its message, "value cannot be empty", is never
    used. *)
Theorem length_within_bounds (min : Z) (max : option Z) (v : jsvalue) (n : nat) :
  sized v = Some n →
  validate [Length.length min max] v
  = Ok {| value := v;
          valid := (min <=? Z.of_nat n)%Z
                   && (if max is Some m then (Z.of_nat n <=? m)%Z else true);
          errors := length_errors min max (Z.of_nat n) |}
  ∧ ((min <= 0)%Z →
       Forall (fun e => field "code" e = VStr "length.max")
              (length_errors min max (Z.of_nat n))).
Proof.
  intros Hn. split.
  - rewrite validate_singleton. unfold Length.length, length_errors.
    rewrite (sized_length _ _ Hn). cbn [to_number].
    destruct (Z.ltb_spec (Z.of_nat n) min) as [Hlt|Hge];
      destruct (Z.leb_spec min (Z.of_nat n)) as [Hle|Hgt]; try lia;
      destruct max as [m|];
      try (destruct (Z.ltb_spec m (Z.of_nat n)) as [Hlt'|Hge'];
           destruct (Z.leb_spec (Z.of_nat n) m) as [Hle'|Hgt']; try lia);
      done.
  - intros Hmin. unfold length_errors.
    destruct (Z.ltb_spec (Z.of_nat n) min) as [Hlt|Hge]; [lia|].
    destruct max as [m|]; [|done]. destruct (m <? Z.of_nat n)%Z; by repeat constructor.
Qed.

Lemma length_within_bounds_witness :
  validate [Length.length 2 (Some 3%Z)] (VStr "abcd")
  = Ok {| value := VStr "abcd"; valid := false;
          errors := [[("code", VStr "length.max"); ("path", VArr []);
                      ("message", VStr "value cannot exceed 3 in length")]] |}
  ∧ ((2 <= 0)%Z →
       Forall (fun e => field "code" e = VStr "length.max")
              (length_errors 2 (Some 3%Z) 4)).
Proof. apply (length_within_bounds 2 (Some 3%Z) (VStr "abcd") 4). reflexivity. Defined.

Lemma check_arguments_from (index : nat) (args : list argument) :
  match check_arguments index args with
  | inr fns => args = Fn <$> fns
  | inl err =>
      ∃ i v, args !! i = Some (NotFn v)
             ∧ (∀ j, j < i → ∃ fn, args !! j = Some (Fn fn))
             ∧ err = {| argument_message :=
                          "schema(): value with index " +:+ index_key (index + i)
                          +:+ " is not a function";
                        argument_value := v |}
  end.
Proof.
  revert index. induction args as [|[fn|v] args IH]; intros index; cbn [check_arguments].
  - done.
  - specialize (IH (S index)). destruct (check_arguments (S index) args) as [err|fns].
    + destruct IH as (i & v & Hi & Hbefore & ->). exists (S i), v. split_and!; [done| |].
      * intros [|j] Hj; [by eexists|]. apply Hbefore. lia.
      * by replace (index + S i) with (S index + i) by lia.
    + by rewrite IH.
  - exists 0, v. split_and!; [done|lia|]. by rewrite Nat.add_0_r.
Qed.

(** X13.  [schema(...)] accepts its arguments exactly when every one of
    them is a function, and then works with them in the order given.
    Otherwise it throws for the first argument that is not a function,
    naming its position in the message and attaching the argument
    itself; the arguments after it are not looked at. *)
Theorem check_arguments_first_offender (args : list argument) :
  match check_arguments 0 args with
  | inr fns => args = Fn <$> fns
  | inl err =>
      ∃ i v, args !! i = Some (NotFn v)
             ∧ (∀ j, j < i → ∃ fn, args !! j = Some (Fn fn))
             ∧ err = {| argument_message :=
                          "schema(): value with index " +:+ index_key i
                          +:+ " is not a function";
                        argument_value := v |}
  end.
Proof.
  pose proof (check_arguments_from 0 args) as H.
  destruct (check_arguments 0 args) as [err|fns]; [|done].
  destruct H as (i & v & Hi & Hbefore & ->). by exists i, v.
Qed.

(** ** Faults *)

Lemma for_of_Throw before fn after st st' f :
  for_of before st = Ok st' → thrown (fn (st_value st')) = Some f →
  for_of (before ++ fn :: after) st = Throw f.
Proof.
  intros Hbefore Hfn. rewrite for_of_app, Hbefore. cbn [mbind result_bind for_of].
  apply (call_Throw _ st') in Hfn. by rewrite Hfn.
Qed.

(** X14.  The first handler that throws ends the run: the handlers after
    it are not called, and [validate], [test] and [assert] all throw its
    fault, whatever errors the handlers before it had reported.  The
    schema used as a handler inside another schema then throws as well,
    before it has passed a single error or the value on to its caller. *)
Theorem first_fault_ends_run (before after : list Handler) (fn : Handler)
    (input : jsvalue) (r : PipelineResult) (f : fault) :
  validate before input = Ok r →
  thrown (fn (value r)) = Some f →
  validate (before ++ fn :: after) input = Throw f
  ∧ test (before ++ fn :: after) input = Throw f
  ∧ assert (before ++ fn :: after) input = Throw f
  ∧ schema (before ++ fn :: after) input = Fail f.
Proof.
  intros Hbefore Hfn.
  assert (validate (before ++ fn :: after) input = Throw f) as Hthrow.
  { unfold validate in *. rewrite validationPipeline_assemble in *.
    destruct (for_of before _) as [st|f'] eqn:Hst; [|done].
    injection Hbefore as <-. by rewrite (for_of_Throw _ _ _ _ _ _ Hst Hfn). }
  split_and!; [done| | |].
  - unfold test. by rewrite Hthrow.
  - unfold assert. by rewrite Hthrow.
  - unfold schema. by rewrite handler_unfold, Hthrow.
Qed.

Lemma first_fault_ends_run_witness :
  let fns := [required] ++ key "name" [] :: [stringify] in
  validate fns VNull = Throw TypeError
  ∧ test fns VNull = Throw TypeError
  ∧ assert fns VNull = Throw TypeError
  ∧ schema fns VNull = Fail TypeError.
Proof.
  intros fns.
  apply (first_fault_ends_run [required] [stringify] (key "name" []) VNull
           {| value := VNull; valid := false;
              errors := [[("code", VStr "required"); ("path", VArr []);
                          ("message", VStr "value is required"); ("value", VNull)]] |}
           TypeError); reflexivity.
Defined.

(** ** [required] under a [key] *)

(** X15.  On an object, and for a name that is not one of the members
    inherited from [Object.prototype], [key(name, required())] reports
    one [required] error with the path [[name]] when the property is
    missing or falsy, and none otherwise.  Either way the object it
    returns has [name] set to what it read and every other property as
    it was, so that a missing property comes back present and
    [undefined]. *)
Theorem key_required (name : string) (o : record) :
  name ∉ Object_prototype →
  NoDup (o.*1) →
  ∃ p,
    validate [key name [required]] (VObj o)
    = Ok {| value := VObj p;
            valid := truthy (field name o);
            errors :=
              if truthy (field name o) then []
              else [[("code", VStr "required"); ("path", VArr [VStr name]);
                     ("message", VStr "value is required");
                     ("value", field name o)]] |}
    ∧ ∀ k, lookup_prop k p
           = if decide (k = name) then Some (field name o) else lookup_prop k o.
Proof.
  intros _ Hnd. exists (assign_prop name (field name o) o). split.
  - unfold validate at 1. rewrite validationPipeline_assemble.
    cbn [for_of]. rewrite call_key. cbn [st_value st_errors get_prop].
    cbn [mbind result_bind]. fold (field name o).
    rewrite validate_singleton. unfold required at 1.
    rewrite spread_object by done.
    destruct (truthy (field name o)) eqn:Htruthy; cbn [negb call callback]; [done|].
    unfold error. cbn [st_value st_errors fmap result_fmap mbind result_bind].
    cbn [assemble st_value st_errors value errors app fmap list_fmap].
    change [relayed (VStr name)
              (spread_into [("code", VStr "required"); ("path", VArr [])]
                 (VObj [("message", VStr "value is required"); ("value", field name o)]))]
      with [relayed (VStr name)
              [("code", VStr "required"); ("path", VArr []);
               ("message", VStr "value is required"); ("value", field name o)]].
    rewrite relayed_record; [done| | |].
    + apply NoDup_cons. split; [by intros ?%list_elem_of_singleton|apply NoDup_singleton].
    + by intros [?|[?|?%elem_of_nil]%elem_of_cons]%elem_of_cons.
    + by intros [?|[?|?%elem_of_nil]%elem_of_cons]%elem_of_cons.
  - intros k. case_decide as Hk.
    + subst k. apply lookup_assign_eq.
    + by apply lookup_assign_ne.
Qed.

Lemma key_required_witness :
  ∃ p,
    validate [key "email" [required]] (VObj [("name", VStr "Ada")])
    = Ok {| value := VObj p;
            valid := false;
            errors := [[("code", VStr "required"); ("path", VArr [VStr "email"]);
                        ("message", VStr "value is required");
                        ("value", VUndefined)]] |}
    ∧ ∀ k, lookup_prop k p
           = if decide (k = "email") then Some VUndefined
             else lookup_prop k [("name", VStr "Ada")].
Proof.
  apply (key_required "email" [("name", VStr "Ada")]).
  - rewrite <- inherited_spec. by intros [=].
  - apply NoDup_singleton.
Defined.

(** ** [items] on values that are not arrays *)




Lemma chars_nonempty a s : chars (String a s) ≠ [].
Proof. done. Qed.



(** ** Two [items] steps in a row *)

Lemma validate_in_sequence fns1 fns2 x r1 r2 :
  validate fns1 x = Ok r1 → validate fns2 (value r1) = Ok r2 →
  validate (fns1 ++ fns2) x = Ok (in_sequence r1 r2).
Proof.
  unfold validate. intros H1 H2. rewrite validationPipeline_app, H1.
  cbn [mbind result_bind]. by rewrite H2.
Qed.

Lemma items_in_sequence fns1 fns2 (xs : list jsvalue) (rs1 rs2 : list PipelineResult) :
  Forall2 (fun x r => validate fns1 x = Ok r) xs rs1 →
  Forall2 (fun v r => validate fns2 v = Ok r) (value <$> rs1) rs2 →
  Forall2 (fun x r => validate (fns1 ++ fns2) x = Ok r) xs (zip_with in_sequence rs1 rs2).
Proof.
  intros H1. revert rs2. induction H1 as [|x r1 xs rs1 Hr1 _ IH]; intros rs2 H2.
  - done.
  - cbn [fmap list_fmap] in H2.
    apply Forall2_cons_inv_l in H2 as (r2 & rs2' & Hr2 & Hrs2 & ->).
    cbn [zip_with]. constructor; [by apply validate_in_sequence|by apply IH].
Qed.

Lemma value_in_sequence (rs1 rs2 : list PipelineResult) :
  length rs1 = length rs2 → value <$> zip_with in_sequence rs1 rs2 = value <$> rs2.
Proof.
  revert rs2. induction rs1 as [|r1 rs1 IH]; intros [|r2 rs2]; try done.
  intros [= Hlen]. cbn [zip_with fmap list_fmap]. f_equal. by apply IH.
Qed.

Lemma valid_in_sequence (rs1 rs2 : list PipelineResult) :
  length rs1 = length rs2 →
  forallb valid (zip_with in_sequence rs1 rs2) = forallb valid rs1 && forallb valid rs2.
Proof.
  revert rs2. induction rs1 as [|r1 rs1 IH]; intros [|r2 rs2]; try done.
  intros [= Hlen]. cbn [zip_with forallb in_sequence valid]. rewrite IH by done.
  destruct (valid r1), (valid r2), (forallb valid rs1); done.
Qed.

(** Element by element or pass by pass, the same records are gathered. *)
Lemma errors_in_sequence (g : nat → list record → list record)
    (rs1 rs2 : list PipelineResult) :
  (∀ i a b, g i (a ++ b) = g i a ++ g i b) →
  length rs1 = length rs2 →
  mjoin (imap (fun i r => g i (errors r)) (zip_with in_sequence rs1 rs2))
  ≡ₚ mjoin (imap (fun i r => g i (errors r)) rs1)
     ++ mjoin (imap (fun i r => g i (errors r)) rs2).
Proof.
  intros Hg. revert g Hg rs2.
  induction rs1 as [|r1 rs1 IH]; intros g Hg [|r2 rs2]; try done.
  intros [= Hlen]. cbn [zip_with]. rewrite !imap_cons. cbn [mjoin list_join].
  cbn [in_sequence errors]. rewrite Hg.
  specialize (IH (fun i => g (S i)) (fun i => Hg (S i)) rs2 Hlen).
  unfold compose. rewrite IH, <- !app_assoc. f_equiv.
  apply Permutation_app_swap_app.
Qed.

(** X17.  Two [items] steps in a row against one [items] step over the
    joined handler lists.  When the two passes over the array return,
    the single pass returns as well, with the same array and the same
    validity; it reports the same errors, grouped by element rather than
    by pass. *)
Theorem items_fused (fns1 fns2 : list Handler) (xs : list jsvalue) (r : PipelineResult) :
  validate [items fns1; items fns2] (VArr xs) = Ok r →
  ∃ r', validate [items (fns1 ++ fns2)] (VArr xs) = Ok r'
        ∧ value r' = value r ∧ valid r' = valid r ∧ errors r' ≡ₚ errors r.
Proof.
  change [items fns1; items fns2] with ([items fns1] ++ [items fns2]).
  unfold validate at 1. rewrite validationPipeline_app.
  fold (validate [items fns1] (VArr xs)). rewrite validate_items_array.
  destruct (mapM (validate fns1) xs) as [rs1|f] eqn:H1; [|done].
  cbn [mbind result_bind value].
  fold (validate [items fns2] (VArr (value <$> rs1))). rewrite validate_items_array.
  destruct (mapM (validate fns2) (value <$> rs1)) as [rs2|f] eqn:H2; [|done].
  cbn [mbind result_bind value valid errors]. intros [= <-].
  apply mapM_Ok_Forall2 in H1, H2.
  pose proof (items_in_sequence _ _ _ _ _ H1 H2) as H12.
  assert (length rs1 = length rs2) as Hlen
    by (apply Forall2_length in H2; by rewrite length_fmap in H2).
  apply mapM_Ok_Forall2 in H12. rewrite validate_items_array, H12.
  eexists. split; [done|]. cbn [value valid errors]. split_and!.
  - by rewrite value_in_sequence.
  - by apply valid_in_sequence.
  - apply (errors_in_sequence
             (fun i es => reported (relayed (VNum (Z.of_nat i)) <$> es))); [|done].
    intros i a b. by rewrite fmap_app, reported_app.
Qed.

Lemma items_fused_witness :
  ∃ r', validate [items ([required] ++ [isType "string" is_string])]
          (VArr [VNum 0; VStr "a"]) = Ok r'
        ∧ value r' = VArr [VNum 0; VStr "a"]
        ∧ valid r' = false
        ∧ errors r'
          ≡ₚ [[("code", VStr "required"); ("path", VArr [VNum 0]);
               ("message", VStr "value is required"); ("value", VNum 0)];
              [("code", VStr "is.type"); ("path", VArr [VNum 0]);
               ("message", VStr "wrong type: expected string");
               ("expectedType", VStr "string"); ("value", VNum 0)]].
Proof.
  apply (items_fused [required] [isType "string" is_string] [VNum 0; VStr "a"]
           {| value := VArr [VNum 0; VStr "a"]; valid := false;
              errors := [[("code", VStr "required"); ("path", VArr [VNum 0]);
                          ("message", VStr "value is required"); ("value", VNum 0)];
                         [("code", VStr "is.type"); ("path", VArr [VNum 0]);
                          ("message", VStr "wrong type: expected string");
                          ("expectedType", VStr "string"); ("value", VNum 0)]] |}).
  reflexivity.
Defined.
